(** * MPL: modal / epistemic propositional logic over Kripke models

    A shallow embedding of the library's [Wff] constructor, its [Model]
    (worlds, valuations, per-agent successor lists), the reachability
    closures and the truth evaluator, followed by the properties
    established about them. *)

From Stdlib Require Import List String Ascii Arith NArith Bool Lia DecimalString.
Import ListNotations.
Local Open Scope string_scope.
Local Open Scope list_scope.
Local Open Scope nat_scope.
Set Warnings "-register-all".

(** ** JavaScript values, exceptions *)

(** The property names the library reads off a formula node. *)
Inductive key : Type :=
| k_prop | k_neg | k_nec | k_poss
| k_conj | k_disj | k_impl | k_equi | k_know
| k_group | k_eknow | k_distrib | k_common.

(** A JavaScript value as it occurs in formula trees and assignments.  An
    object is its property table over the names of [key]; a property that is
    absent reads as [JUndefined].  Objects are trees: no two positions hold
    the same object.  A string is held as its UTF-8 bytes. *)
Inductive jsval : Type :=
| JUndefined
| JNull
| JBool (b : bool)
| JNum (n : nat)
| JStr (s : string)
| JArr (elems : list jsval)
| JObj (fields : key -> jsval).

Inductive error : Type :=
| Error (message : string)
| TypeError
| ReferenceError.

Inductive result (A : Type) : Type :=
| Ret (a : A)
| Throw (e : error).
Arguments Ret {A} a.
Arguments Throw {A} e.

Definition bind {A B : Type} (r : result A) (k : A -> result B) : result B :=
  match r with
  | Ret a => k a
  | Throw e => Throw e
  end.

Notation "x <- e ;; k" := (bind e (fun x => k))
  (at level 61, e at next level, right associativity).

Definition key_eqb (a b : key) : bool :=
  match a, b with
  | k_prop, k_prop | k_neg, k_neg | k_nec, k_nec | k_poss, k_poss
  | k_conj, k_conj | k_disj, k_disj | k_impl, k_impl | k_equi, k_equi
  | k_know, k_know | k_group, k_group | k_eknow, k_eknow
  | k_distrib, k_distrib | k_common, k_common => true
  | _, _ => false
  end.

(** The object literal [{k: v}]. *)
Definition obj (k : key) (v : jsval) : jsval :=
  JObj (fun k' => if key_eqb k k' then v else JUndefined).

(** ToBoolean. *)
Definition truthy (v : jsval) : bool :=
  match v with
  | JUndefined | JNull => false
  | JBool b => b
  | JNum n => negb (Nat.eqb n 0)
  | JStr s => negb (Nat.eqb (String.length s) 0)
  | JArr _ | JObj _ => true
  end.

(** What the byte [c] adds to [s.length], which counts UTF-16 code units:
    nothing for a continuation byte, two for the lead byte of a four-byte
    character (a surrogate pair), one for any other byte. *)
Definition units (c : ascii) : nat :=
  let n := nat_of_ascii c in
  if n <? 128 then 1 else if n <? 192 then 0 else if n <? 240 then 1 else 2.

(** [s.length] *)
Fixpoint js_length (s : string) : nat :=
  match s with
  | EmptyString => 0
  | String c r => units c + js_length r
  end.

Fixpoint continuation_bytes (s : string) : string :=
  match s with
  | EmptyString => EmptyString
  | String c r =>
      if (128 <=? nat_of_ascii c) && (nat_of_ascii c <? 192)
      then String c (continuation_bytes r)
      else EmptyString
  end.

(** [s[0]] for a non-empty string: its first character, which is the lead
    byte and the continuation bytes behind it.  (Of a character outside the
    basic plane [s[0]] is the first half only, which no string of bytes
    holds; the whole character stands for it.) *)
Definition first_char (s : string) : string :=
  match s with
  | EmptyString => EmptyString
  | String c r => String c (continuation_bytes r)
  end.

Definition string_of_nat (n : nat) : string :=
  NilZero.string_of_uint (Nat.to_uint n).

(** ToString, as string concatenation applies it. *)
Fixpoint toString (v : jsval) : string :=
  match v with
  | JUndefined => "undefined"
  | JNull => "null"
  | JBool true => "true"
  | JBool false => "false"
  | JNum n => string_of_nat n
  | JStr s => s
  | JArr l =>
      (fix join (l : list jsval) : string :=
         let elt x := match x with
                      | JUndefined | JNull => ""
                      | _ => toString x
                      end in
         match l with
         | [] => ""
         | [x] => elt x
         | x :: r => elt x ++ "," ++ join r
         end)%string l
  | JObj _ => "[object Object]"
  end.

(** ** Formulas: JSON to ASCII, and the [Wff] constructor *)

(** A child array [c] as the binary cases of [_jsonToASCII] read it, under
    the test [c && c.length === 2]: a two-element array gives its elements; a
    string of length two passes the test too, and its elements are
    one-character strings; anything else fails the test. *)
Definition binary_node {R : Type} (c : jsval)
    (children : jsval -> jsval -> R) (chars : R) (otherwise : R) : R :=
  match c with
  | JArr (a :: b :: nil) => children a b
  | JStr s => if Nat.eqb (js_length s) 2 then chars else otherwise
  | _ => otherwise
  end.

Definition invalid_json : error := Error "Invalid JSON for formula!".

Definition infix (open sep close : string) (x y : jsval) : jsval :=
  JStr (open ++ toString x ++ sep ++ toString y ++ close)%string.

Fixpoint _jsonToASCII (json : jsval) : result jsval :=
  match json with
  | JUndefined | JNull => Throw TypeError
  | JObj o =>
      let binary c open sep close otherwise :=
        binary_node c
          (fun a b => x <- _jsonToASCII a ;; y <- _jsonToASCII b ;;
                      Ret (infix open sep close x y))
          (Throw invalid_json)
          otherwise in
      if truthy (o k_prop) then Ret (o k_prop)
      else if truthy (o k_neg) then
        x <- _jsonToASCII (o k_neg) ;; Ret (JStr ("~" ++ toString x))
      else if truthy (o k_nec) then
        x <- _jsonToASCII (o k_nec) ;; Ret (JStr ("[]" ++ toString x))
      else if truthy (o k_poss) then
        x <- _jsonToASCII (o k_poss) ;; Ret (JStr ("<>" ++ toString x))
      else
        binary (o k_conj) "(" " & " ")" (
        binary (o k_disj) "(" " | " ")" (
        binary (o k_impl) "(" " -> " ")" (
        binary (o k_equi) "(" " <-> " ")" (
        binary (o k_know) "(" " ? " ")" (
        binary (o k_group) "" " , " "" (
        binary (o k_eknow) "(" " # " ")" (
        binary (o k_distrib) "(" " / " ")" (
        binary (o k_common) "(" " § " ")" (
        Throw invalid_json)))))))))
  | _ => Throw invalid_json
  end.

(** [s.replace(/pat/g, rep)] for a literal, non-empty pattern: [skip] counts
    the characters of a match still to be passed over. *)
Fixpoint replace_from (skip : nat) (pat rep s : string) : string :=
  match s with
  | EmptyString => EmptyString
  | String c s' =>
      match skip with
      | S k => replace_from k pat rep s'
      | O =>
          if prefix pat s
          then (rep ++ replace_from (String.length pat - 1) pat rep s')%string
          else String c (replace_from 0 pat rep s')
      end
  end.

Definition replace (pat rep s : string) : string := replace_from 0 pat rep s.

(** The renderers call [ascii.replace]: a value that is no string has no
    such method. *)
Definition _asciiToLaTeX (ascii : jsval) : result string :=
  match ascii with
  | JStr s =>
      Ret (replace " -> " "\rightarrow{}"
          (replace " <-> " "\leftrightarrow{}"
          (replace " | " "\lor{}"
          (replace " & " "\land{}"
          (replace "<>" "\Diamond{}"
          (replace "[]" "\Box{}"
          (replace "~" "\lnot{}" s)))))))
  | _ => Throw TypeError
  end.

Definition _asciiToUnicode (ascii : jsval) : result string :=
  match ascii with
  | JStr s =>
      Ret (replace "->" "→"
          (replace "<->" "↔"
          (replace "|" "∨"
          (replace "&" "∧"
          (replace "<>" "◊"
          (replace "[]" "□"
          (replace "~" "¬" s)))))))
  | _ => Throw TypeError
  end.

(** The four representations a [Wff] holds. *)
Record Wff : Type := mkWff {
  _ascii : jsval;
  _json : jsval;
  _latex : string;
  _unicode : string
}.

(** [typeof v === 'object'] *)
Definition typeof_object (v : jsval) : bool :=
  match v with
  | JNull | JArr _ | JObj _ => true
  | _ => false
  end.

Section WffConstructor.

(** [MPLParser.parse], of the formula-parser dependency. *)
Variable MPLParser_parse : jsval -> result jsval.

Definition _asciiToJSON (ascii : jsval) : result jsval :=
  MPLParser_parse ascii.

(** [new Wff(asciiOrJSON)] *)
Definition new_Wff (asciiOrJSON : jsval) : result Wff :=
  json <- (if typeof_object asciiOrJSON then Ret asciiOrJSON
           else _asciiToJSON asciiOrJSON) ;;
  ascii <- _jsonToASCII json ;;
  latex <- _asciiToLaTeX ascii ;;
  unicode <- _asciiToUnicode ascii ;;
  Ret {| _ascii := ascii; _json := json; _latex := latex; _unicode := unicode |}.

End WffConstructor.

(** ** The Kripke model *)

(** A plain object (one that an object literal creates) used as a table
    from property names to values: its own properties, in the order in which
    [for ... in] and [Object.keys] list them, which is the names that are
    array indices in ascending order, then the other names in the order of
    their creation.  Behind its own properties stand the ones it inherits
    from [Object.prototype]. *)
Definition object : Type := list (string * jsval).

Definition has_own (k : string) (o : object) : bool :=
  existsb (fun entry => String.eqb k (fst entry)) o.

(** The own property [k], [undefined] when there is none. *)
Fixpoint obj_get (k : string) (o : object) : jsval :=
  match o with
  | [] => JUndefined
  | (k', v) :: r => if String.eqb k k' then v else obj_get k r
  end.

(** The property names of [Object.prototype]. *)
Definition Object_prototype : list string :=
  ["constructor"; "hasOwnProperty"; "isPrototypeOf"; "propertyIsEnumerable";
   "toLocaleString"; "toString"; "valueOf"; "__proto__";
   "__defineGetter__"; "__defineSetter__";
   "__lookupGetter__"; "__lookupSetter__"].

Definition inherited (k : string) : bool :=
  existsb (String.eqb k) Object_prototype.

(** [!!o[k]]: the own property decides when there is one; a name of
    [Object.prototype] reads as what that object holds, a function (under
    [__proto__], the prototype itself), which is truthy; any other name reads
    as [undefined]. *)
Definition reads_truthy (k : string) (o : object) : bool :=
  if has_own k o then truthy (obj_get k o) else inherited k.

(** The array index a property name denotes: the name is the decimal
    numeral, without leading zeros, of an integer below 2^32 - 1. *)
Definition array_index (k : string) : option N :=
  match NilZero.uint_of_string k with
  | Some d =>
      let n := N.of_uint d in
      if String.eqb (NilZero.string_of_uint (N.to_uint n)) k
         && (n <? 4294967295)%N
      then Some n else None
  | None => None
  end.

(** A new property [k] is listed before the property [k']. *)
Definition before (k k' : string) : bool :=
  match array_index k, array_index k' with
  | Some n, Some n' => (n <? n')%N
  | Some _, None => true
  | None, _ => false
  end.

Fixpoint update (k : string) (v : jsval) (o : object) : object :=
  match o with
  | [] => []
  | (k', v') :: r =>
      if String.eqb k k' then (k, v) :: r else (k', v') :: update k v r
  end.

Fixpoint create (k : string) (v : jsval) (o : object) : object :=
  match o with
  | [] => [(k, v)]
  | (k', v') :: r =>
      if before k k' then (k, v) :: o else (k', v') :: create k v r
  end.

(** The own property [k] set to [v]: in place when the object has it,
    created otherwise. *)
Definition obj_set (k : string) (v : jsval) (o : object) : object :=
  if has_own k o then update k v o else create k v o.

(** [o[k] = true].  Under the name [__proto__], unless the object has a
    property of its own by that name, the assignment runs the setter
    inherited from [Object.prototype], which ignores a value that is no
    object: no property is created. *)
Definition assign_true (k : string) (o : object) : object :=
  if String.eqb k "__proto__" && negb (has_own k o) then o
  else obj_set k (JBool true) o.

Fixpoint obj_delete (k : string) (o : object) : object :=
  match o with
  | [] => []
  | (k', v') :: r =>
      if String.eqb k k' then obj_delete k r else (k', v') :: obj_delete k r
  end.

Definition obj_keys (o : object) : list string := map fst o.

(** A [Map] from agent identifiers to successor arrays, in insertion
    order. *)
Definition Map : Type := list (string * list nat).

Fixpoint map_get (k : string) (m : Map) : option (list nat) :=
  match m with
  | [] => None
  | (k', v) :: r => if String.eqb k k' then Some v else map_get k r
  end.

Fixpoint map_set (k : string) (v : list nat) (m : Map) : Map :=
  match m with
  | [] => [(k, v)]
  | (k', v') :: r =>
      if String.eqb k k' then (k, v) :: r else (k', v') :: map_set k v r
  end.

(** [s.get(key)] for an arbitrary value as key: the keys held are strings. *)
Definition Map_get (key : jsval) (m : Map) : option (list nat) :=
  match key with
  | JStr a => map_get a m
  | _ => None
  end.

(** What a state's [successors] property holds: the [Map] that [addState]
    creates, or the empty object literal that [loadFromModelString] stores
    (which has none of a Map's methods). *)
Inductive successors_t : Type :=
| SuccMap (s : Map)
| SuccObject.

Record State : Type := mkState {
  assignment : object;
  successors : successors_t
}.

(** [_states]: the array of states; [None] is [null]. *)
Definition Model : Type := list (option State).

(** [_states[i]], when it is truthy. *)
Definition state_at (_states : Model) (i : nat) : option State :=
  match nth_error _states i with
  | Some (Some st) => Some st
  | _ => None
  end.

(** [_states[i] = x] for an index in range. *)
Fixpoint set_nth {A : Type} (i : nat) (x : A) (l : list A) : list A :=
  match l, i with
  | [], _ => []
  | _ :: r, O => x :: r
  | y :: r, S i' => y :: set_nth i' x r
  end.

(** A method that may change [_states] and may throw: the outcome, and the
    states it leaves. *)
Definition method (A : Type) : Type := Model -> result A * Model.

Definition ret {A : Type} (a : A) : method A := fun m => (Ret a, m).

Definition throw {A : Type} (e : error) : method A := fun m => (Throw e, m).

Definition then_ {A B : Type} (c : method A) (k : A -> method B) : method B :=
  fun m => match c m with
           | (Ret a, m') => k a m'
           | (Throw e, m') => (Throw e, m')
           end.

Notation "x <~ c ;; k" := (then_ c (fun x => k))
  (at level 61, c at next level, right associativity).

Fixpoint forEach {A : Type} (l : list A) (f : A -> method unit) : method unit :=
  match l with
  | [] => ret tt
  | x :: r => _ <~ f x ;; forEach r f
  end.

(** Replaces what [successors] of the state at [source] holds. *)
Definition store_successors (source : nat) (s : Map) : method unit :=
  fun m => match state_at m source with
           | Some st =>
               (Ret tt, set_nth source
                          (Some {| assignment := assignment st;
                                   successors := SuccMap s |}) m)
           | None => (Ret tt, m)
           end.

(** The [Map] at [source], as [s.has], [s.get] and [s.set] need it. *)
Definition the_map (source : nat) : method Map :=
  fun m => match state_at m source with
           | Some {| successors := SuccMap s |} => (Ret s, m)
           | _ => (Throw TypeError, m)
           end.

Definition addTransition (source target : nat) (agentList : list string)
  : method unit :=
  fun _states =>
    match state_at _states source, state_at _states target with
    | Some _, Some _ =>
        forEach agentList (fun agent =>
          s <~ the_map source ;;
          match map_get agent s with
          | Some L => store_successors source (map_set agent (L ++ [target]) s)
          | None => store_successors source (map_set agent [target] s)
          end) _states
    | _, _ => (Ret tt, _states)
    end.

(** [L.indexOf(target)], then [L.splice(index, 1)] when it is found. *)
Fixpoint remove_first (target : nat) (L : list nat) : list nat :=
  match L with
  | [] => []
  | x :: r => if Nat.eqb x target then r else x :: remove_first target r
  end.

(** The elements of [agentList] are tested with [s.has]: any value may
    stand there. *)
Definition removeTransition (source target : nat) (agentList : list jsval)
  : method unit :=
  fun _states =>
    match state_at _states source with
    | Some _ =>
        forEach agentList (fun agent =>
          s <~ the_map source ;;
          match Map_get agent s with
          | Some L =>
              match agent with
              | JStr a => store_successors source (map_set a (remove_first target L) s)
              | _ => ret tt
              end
          | None => ret tt
          end) _states
    | None => (Ret tt, _states)
    end.

Definition getSuccessorsOf (_states : Model) (source : nat) (agent : jsval)
  : result (option (list nat)) :=
  match state_at _states source with
  | None => Ret None
  | Some st =>
      match successors st with
      | SuccMap s => Ret (Map_get agent s)
      | SuccObject => Throw TypeError
      end
  end.

(** [successors.values()]: the successor arrays, one per agent, in the
    Map's order. *)
Definition getSuccessorsOfOld (_states : Model) (source : nat)
  : result (option (list (list nat))) :=
  match state_at _states source with
  | None => Ret None
  | Some st =>
      match successors st with
      | SuccMap s => Ret (Some (map snd s))
      | SuccObject => Throw TypeError
      end
  end.

Definition is_true (v : jsval) : bool :=
  match v with JBool true => true | _ => false end.

Definition is_false (v : jsval) : bool :=
  match v with JBool false => true | _ => false end.

(** The value assigned to [processedAssignment[propvar]] has just been
    tested to be [true]. *)
Definition addState (assignment : object) : method unit :=
  fun _states =>
    let processedAssignment :=
      fold_left (fun acc '(propvar, v) =>
                   if is_true v then assign_true propvar acc else acc)
                assignment [] in
    (Ret tt, _states ++ [Some {| assignment := processedAssignment;
                                 successors := SuccMap [] |}]).

Definition editState (state : nat) (assignment : object) : method unit :=
  fun _states =>
    match state_at _states state with
    | None => (Ret tt, _states)
    | Some (mkState stateAssignment s) =>
        let stateAssignment :=
          fold_left (fun acc '(propvar, v) =>
                       if is_true v then assign_true propvar acc
                       else if is_false v then obj_delete propvar acc
                       else acc)
                    assignment stateAssignment in
        (Ret tt, set_nth state (Some (mkState stateAssignment s)) _states)
    end.

(** A state object or [null] as a value (handed to [s.has] below). *)
Definition state_value (st : option State) : jsval :=
  match st with
  | Some _ => JObj (fun _ => JUndefined)
  | None => JNull
  end.

(** The callback of [_states.forEach] names its third parameter [agent]:
    that parameter is the array [_states] itself. *)
Definition removeState (state : nat) : method unit :=
  fun _states =>
    match state_at _states state with
    | None => (Ret tt, _states)
    | Some _ =>
        let _states := set_nth state None _states in
        forEach (seq 0 (List.length _states)) (fun index =>
          fun now =>
            match state_at now index with
            | Some _ => removeTransition index state (map state_value now) now
            | None => (Ret tt, now)
            end) _states
    end.

Definition getStates (_states : Model) : list (option object) :=
  map (fun state => match state with
                    | Some st => Some (assignment st)
                    | None => None
                    end) _states.

Definition state_not_found (state : nat) : error :=
  Error ("State " ++ string_of_nat state ++ " not found!").

(** [valuation(propvar, state)]: the property name is [propvar] as a
    string. *)
Definition valuation (_states : Model) (propvar : jsval) (state : nat)
  : result bool :=
  match state_at _states state with
  | None => Throw (state_not_found state)
  | Some st => Ret (reads_truthy (toString propvar) (assignment st))
  end.

(** [successors.keys()]: the agents with an entry at [source], in the Map's
    order. *)
Definition getAgents (_states : Model) (source : nat)
  : result (option (list string)) :=
  match state_at _states source with
  | None => Ret None
  | Some st =>
      match successors st with
      | SuccMap s => Ret (Some (map fst s))
      | SuccObject => Throw TypeError
      end
  end.

(** [if (L.indexOf(key) === -1) L.push(key)] for a key of the Map. *)
Definition push_agent (L : list string) (key : string) : list string :=
  if existsb (String.eqb key) L then L else L ++ [key].

(** [getAllAgents()]: [g.forEach] is a Map's method; the empty object has
    none. *)
Definition getAllAgents (_states : Model) : result (list string) :=
  fold_left (fun acc state =>
               L <- acc ;;
               match state with
               | Some st =>
                   match successors st with
                   | SuccMap g => Ret (fold_left push_agent (map fst g) L)
                   | SuccObject => Throw TypeError
                   end
               | None => Ret L
               end)
            _states (Ret []).

(** *** The model string *)

(** [for (var agent in state.successors)]: neither a Map nor the empty
    object literal has an enumerable property, so the loop body (which would
    append the agent and its successor indices) runs for no agent. *)
Definition for_in_successors (s : successors_t) : string :=
  match s with
  | SuccMap _ => ""
  | SuccObject => ""
  end.

Definition getModelString (_states : Model) : string :=
  fold_left (fun modelString state =>
               (match state with
                | Some st =>
                    modelString ++ "A" ++ concat "," (obj_keys (assignment st))
                      ++ "S" ++ for_in_successors (successors st)
                | None => modelString
                end ++ ";")%string)
            _states "".

(** [s.split(sep)] for a one-character separator. *)
Fixpoint split (sep : ascii) (s : string) : list string :=
  match s with
  | EmptyString => [EmptyString]
  | String c r =>
      if Ascii.eqb c sep then EmptyString :: split sep r
      else match split sep r with
           | h :: t => String c h :: t
           | [] => [String c EmptyString]
           end
  end.

(** Around the last occurrence of [c]: what stands before and after it. *)
Fixpoint split_last (c : ascii) (s : string) : option (string * string) :=
  match s with
  | EmptyString => None
  | String x r =>
      match split_last c r with
      | Some (b, a) => Some (String x b, a)
      | None => if Ascii.eqb x c then Some (EmptyString, r) else None
      end
  end.

Definition between (lo hi : nat) (c : ascii) : bool :=
  (lo <=? nat_of_ascii c) && (nat_of_ascii c <=? hi).

(** [\d] and [\w] *)
Definition is_digit (c : ascii) : bool := between 48 57 c.

Definition is_word (c : ascii) : bool :=
  between 48 57 c || between 65 90 c || between 97 122 c || Ascii.eqb c "_".

Fixpoint all_chars (p : ascii -> bool) (s : string) : bool :=
  match s with
  | EmptyString => true
  | String c r => p c && all_chars p r
  end.

(** Empty, or [(?:c+,)*c+] for the character class [p]. *)
Definition comma_list (p : ascii -> bool) (s : string) : bool :=
  match s with
  | EmptyString => true
  | _ => forallb (fun x => negb (Nat.eqb (String.length x) 0) && all_chars p x)
                 (split "," s)
  end.

(** [(?:A|A(?:\w+,)*\w+)(?:S|S(?:\d+,)*\d+)]: the digits and commas after
    the separating [S] hold no [S], so it is the last one. *)
Definition token_ok (token : string) : bool :=
  match token with
  | String "A" rest =>
      match split_last "S" rest with
      | Some (props, succs) => comma_list is_word props && comma_list is_digit succs
      | None => false
      end
  | _ => false
  end.

(** [/^(?:;|(?:A|A(?:\w+,)*\w+)(?:S|S(?:\d+,)*\d+);)+$/.test(modelString)] *)
Definition regex_test (modelString : string) : bool :=
  match rev (split ";" modelString) with
  | EmptyString :: tokens =>
      negb (Nat.eqb (List.length tokens) 0)
      && forallb (fun t => Nat.eqb (String.length t) 0 || token_ok t) tokens
  | _ => false
  end.

(** [state.match] with the pattern "A, any run (group 1), S, any run
    (group 2)": from the first [A], the greedy first group runs up to the
    last [S]. *)
Fixpoint match_A_S (state : string) : option (string * string) :=
  match state with
  | EmptyString => None
  | String c r => if Ascii.eqb c "A" then split_last "S" r else match_A_S r
  end.

(** [+succState] on a string of digits. *)
Definition to_number (s : string) : nat :=
  (fix go (acc : nat) (s : string) : nat :=
     match s with
     | EmptyString => acc
     | String c r => go (10 * acc + (nat_of_ascii c - 48)) r
     end) 0 s.

Definition split_commas (substr : string) : list string :=
  match substr with
  | EmptyString => []
  | _ => split "," substr
  end.

(** One input token restored: the state pushed on [_states] and the entry
    pushed on [successorLists]. *)
Definition restore_state (state : string)
  : result (option State * option (list nat)) :=
  match state with
  | EmptyString => Ret (None, None)
  | _ =>
      match match_A_S state with
      | None => Throw TypeError
      | Some (props, succs) =>
          let assignment :=
            fold_left (fun acc propvar => assign_true propvar acc)
                      (split_commas props) [] in
          Ret (Some {| assignment := assignment; successors := SuccObject |},
               Some (map to_number (split_commas succs)))
      end
  end.

(** The second loop calls [self.addTransition(source, target, agent)], and
    no binding of [agent] is in scope there (strict mode): evaluating the
    argument throws before the call. *)
Definition loadFromModelString (modelString : string) : method unit :=
  fun _states =>
    if negb (regex_test modelString) then (Ret tt, _states)
    else
      let inputStates := removelast (split ";" modelString) in
      (_ <~ forEach inputStates (fun state =>
              fun now =>
                match restore_state state with
                | Ret (st, _) => (Ret tt, now ++ [st])
                | Throw e => (Throw e, now)
                end) ;;
       forEach inputStates (fun state =>
         match restore_state state with
         | Ret (_, Some successors) =>
             forEach successors (fun target => throw ReferenceError)
         | _ => ret tt
         end)) [].

(** ** Reachability closure *)

Section Reachability.

(** [getAllSuccessorsOf], [gAccessibility] and [gAccessStrict] read no
    state of their receiver: they call [model.getSuccessorsOf], where
    [model] is a free identifier of the enclosing scope.  This is what it
    is bound to. *)
Variable model : Model.

(** The [while (C[0])] loop.  [C[0]] is falsy when [C] is empty and when
    its first element is the index [0]. *)
Fixpoint closure_loop (fuel : nat) (agent : jsval) (V C : list nat)
  : option (result (list nat)) :=
  match fuel with
  | O => None
  | S fuel' =>
      match C with
      | [] => Some (Ret V)
      | s :: rest =>
          if Nat.eqb s 0 then Some (Ret V)
          else if existsb (Nat.eqb s) V then closure_loop fuel' agent V rest
          else
            match getSuccessorsOf model s agent with
            | Throw e => Some (Throw e)
            | Ret (Some L) => closure_loop fuel' agent (V ++ [s]) (rest ++ L)
            | Ret None => closure_loop fuel' agent (V ++ [s]) rest
            end
      end
  end.

Definition out_degree (agent : jsval) (s : nat) : nat :=
  match getSuccessorsOf model s agent with
  | Ret (Some L) => List.length L
  | _ => 0
  end.

(** What the state [s] can still add to [C]: nothing once it is in [V]. *)
Definition weight (agent : jsval) (V : list nat) (s : nat) : nat :=
  if existsb (Nat.eqb s) V then 0 else out_degree agent s.

(** The elements still to be taken off [C], counting those that the
    states not yet in [V] can add. *)
Definition pending (agent : jsval) (V C : list nat) : nat :=
  List.length C
  + list_sum (map (weight agent V) (seq 0 (List.length model))).

Definition getAllSuccessorsOf (state : nat) (agent : jsval)
  : result (list nat) :=
  C <- getSuccessorsOf model state agent ;;
  match C with
  | None => Ret []
  | Some C =>
      match closure_loop (S (pending agent [] C)) agent [] C with
      | Some r => r
      | None => Ret []
      end
  end.

(** [agent.prop] *)
Definition get_prop (v : jsval) : result jsval :=
  match v with
  | JUndefined | JNull => Throw TypeError
  | JObj o => Ret (o k_prop)
  | _ => Ret JUndefined
  end.

Fixpoint reach_each (state : nat) (agents : list jsval)
  : result (list (list nat)) :=
  match agents with
  | [] => Ret []
  | agent :: rest =>
      p <- get_prop agent ;;
      V <- getAllSuccessorsOf state p ;;
      S <- reach_each state rest ;;
      Ret (V :: S)
  end.

Definition push_new (F : list nat) (s : nat) : list nat :=
  if existsb (Nat.eqb s) F then F else F ++ [s].

Definition gAccessibility (state : nat) (agents : list jsval)
  : result (list nat) :=
  S <- reach_each state agents ;;
  Ret (fold_left (fun F array => fold_left push_new array F) S []).

(** [F = S[0]] is [undefined] for an empty list of agents. *)
Definition gAccessStrict (state : nat) (agents : list jsval)
  : result (option (list nat)) :=
  S <- reach_each state agents ;;
  match S with
  | [] => Ret None
  | F :: _ =>
      Ret (Some (fold_left
                   (fun F array => filter (fun s => existsb (Nat.eqb s) array) F)
                   S F))
  end.

End Reachability.

(** ** The truth evaluator *)

Definition invalid_formula : error := Error "Invalid formula!".

(** [c[0]] and [c[1]] handed to a function of the element: an array gives
    its element, a string one of its characters (a one-character string),
    and a missing element is [undefined]. *)
Definition index0 {R : Type} (c : jsval)
    (elem : jsval -> R) (char : R) (undef : R) : R :=
  match c with
  | JArr (x :: _) => elem x
  | JStr (String _ _) => char
  | _ => undef
  end.

Definition index1 {R : Type} (c : jsval)
    (elem : jsval -> R) (char : R) (undef : R) : R :=
  match c with
  | JArr (_ :: x :: _) => elem x
  | JStr s => if 2 <=? js_length s then char else undef
  | _ => undef
  end.

(** [c[0]] as a value. *)
Definition first_element (c : jsval) : jsval :=
  match c with
  | JArr (x :: _) => x
  | JStr (String ch r) => JStr (first_char (String ch r))
  | _ => JUndefined
  end.

(** [a === b].  Two arrays or objects are equal only when they are one
    object; the values compared here are never the same object. *)
Definition strict_equal (a b : jsval) : bool :=
  match a, b with
  | JUndefined, JUndefined => true
  | JNull, JNull => true
  | JBool x, JBool y => Bool.eqb x y
  | JNum x, JNum y => Nat.eqb x y
  | JStr x, JStr y => String.eqb x y
  | _, _ => false
  end.

(** [if (L.indexOf(a) === -1) L.push(a)] *)
Definition push_if_new (a : jsval) (L : list jsval) : list jsval :=
  if existsb (strict_equal a) L then L else L ++ [a].

(** The [while (g)] loop of the [group] case. *)
Fixpoint group_loop (g : jsval) (L : list jsval) : result (list jsval) :=
  match g with
  | JUndefined | JNull | JBool false => Ret L
  | JBool true | JObj _ => Throw TypeError
  | JNum n => if Nat.eqb n 0 then Ret L else Throw TypeError
  | JStr EmptyString => Ret L
  | JStr s =>
      if 2 <=? js_length s then Ret (push_if_new (JStr (first_char s)) L)
      else Throw TypeError
  | JArr (a :: b :: _) =>
      let L1 := push_if_new a L in
      p <- get_prop b ;;
      let L2 := if truthy p then L1 ++ [b] else L1 in
      match b with
      | JObj o => group_loop (o k_group) L2
      | _ => Ret L2
      end
  | JArr _ => Throw TypeError
  end.

(** [l.every(f)] and [l.some(f)]: the callback's value is tested for
    truthiness, the iteration stops at the first decisive element, and an
    exception of the callback propagates. *)
Fixpoint every {A : Type} (f : A -> result jsval) (l : list A) : result bool :=
  match l with
  | [] => Ret true
  | x :: r => v <- f x ;; if truthy v then every f r else Ret false
  end.

Fixpoint some {A : Type} (f : A -> result jsval) (l : list A) : result bool :=
  match l with
  | [] => Ret false
  | x :: r => v <- f x ;; if truthy v then Ret true else some f r
  end.

Section Evaluator.

(** The binding of the free identifier [model] that [gAccessibility] and
    [gAccessStrict] read. *)
Variable global_model : Model.

Fixpoint _truth (model : Model) (state : nat) (json : jsval) {struct json}
  : result jsval :=
  match json with
  | JUndefined | JNull => Throw TypeError
  | JObj o =>
      let child0 c at_state :=
        index0 c (fun x => _truth model at_state x)
               (Throw invalid_formula) (Throw TypeError) in
      let child1 c at_state :=
        index1 c (fun x => _truth model at_state x)
               (Throw invalid_formula) (Throw TypeError) in
      (* the [know] case, for the agent node [agent] and the body [c[1]] *)
      let know agent c :=
        p <- get_prop agent ;;
        A <- getSuccessorsOf model state p ;;
        match A with
        | None => Ret (JBool true)
        | Some A =>
            b <- every (fun succState => child1 c succState) A ;;
            Ret (JBool b)
        end in
      if truthy (o k_prop) then
        b <- valuation model (o k_prop) state ;; Ret (JBool b)
      else if truthy (o k_neg) then
        v <- _truth model state (o k_neg) ;; Ret (JBool (negb (truthy v)))
      else if truthy (o k_conj) then
        v <- child0 (o k_conj) state ;;
        if truthy v then child1 (o k_conj) state else Ret v
      else if truthy (o k_disj) then
        v <- child0 (o k_disj) state ;;
        if truthy v then Ret v else child1 (o k_disj) state
      else if truthy (o k_impl) then
        v <- child0 (o k_impl) state ;;
        if negb (truthy v) then Ret (JBool true) else child1 (o k_impl) state
      else if truthy (o k_equi) then
        v <- child0 (o k_equi) state ;;
        w <- child1 (o k_equi) state ;;
        Ret (JBool (strict_equal v w))
      else if truthy (o k_nec) then
        L <- getSuccessorsOfOld model state ;;
        match L with
        | None => Throw TypeError
        | Some [] => Ret (JBool true)
        | Some (L0 :: _) =>
            b <- every (fun succState => _truth model succState (o k_nec)) L0 ;;
            Ret (JBool b)
        end
      else if truthy (o k_poss) then
        L <- getSuccessorsOfOld model state ;;
        match L with
        | None => Throw TypeError
        | Some [] => Ret (JBool true)
        | Some (L0 :: _) =>
            b <- some (fun succState => _truth model succState (o k_poss)) L0 ;;
            Ret (JBool b)
        end
      else if truthy (o k_know) then
        know (first_element (o k_know)) (o k_know)
      else if truthy (o k_group) then
        L <- group_loop (o k_group) [] ;; Ret (JArr L)
      else if truthy (o k_eknow) then
        L <- child0 (o k_eknow) state ;;
        match L with
        | JArr L =>
            b <- every (fun agent => know agent (o k_eknow)) L ;;
            Ret (JBool b)
        | _ => Ret JUndefined
        end
      else if truthy (o k_distrib) then
        L <- child0 (o k_distrib) state ;;
        match L with
        | JArr L =>
            A <- gAccessStrict global_model state L ;;
            match A with
            | None => Throw TypeError
            | Some A =>
                b <- every (fun state => child1 (o k_distrib) state) A ;;
                Ret (JBool b)
            end
        | _ => Ret JUndefined
        end
      else if truthy (o k_common) then
        L <- child0 (o k_common) state ;;
        match L with
        | JArr L =>
            G <- gAccessibility global_model state L ;;
            b <- every (fun s => child1 (o k_common) s) G ;;
            Ret (JBool b)
        | _ => Ret JUndefined
        end
      else Throw invalid_formula
  | _ => Throw invalid_formula
  end.

End Evaluator.

(** What a caller may hand to [truth] as [model] or as [wff]. *)
Inductive argument : Type :=
| Model_instance (m : Model)
| Wff_instance (w : Wff)
| other_value (v : jsval).

(** [truth(model, state, wff)], with the function called in its last line
    as [evaluate]. *)
Definition truth_with (evaluate : Model -> nat -> jsval -> result jsval)
    (model : argument) (state : nat) (wff : argument) : result jsval :=
  match model with
  | Model_instance m =>
      match nth_error (getStates m) state with
      | Some (Some _) =>
          match wff with
          | Wff_instance w => evaluate m state (_json w)
          | _ => Throw (Error "Invalid wff!")
          end
      | _ => Throw (state_not_found state)
      end
  | _ => Throw (Error "Invalid model!")
  end.

Definition truth (global_model : Model) : argument -> nat -> argument -> result jsval :=
  truth_with (_truth global_model).

(** * Vocabulary of the properties *)

(** One step of an agent's relation, and one or more steps. *)
Definition edge (model : Model) (agent : string) (i j : nat) : Prop :=
  exists L, getSuccessorsOf model i (JStr agent) = Ret (Some L) /\ In j L.

Inductive reachable (model : Model) (agent : string) : nat -> nat -> Prop :=
| reach_one : forall i j, edge model agent i j -> reachable model agent i j
| reach_more : forall i j k,
    edge model agent i j -> reachable model agent j k ->
    reachable model agent i k.

(** The model after a method has run. *)
Definition run {A : Type} (c : method A) (m : Model) : Model := snd (c m).

(** Worlds 0 and 1, and for agent [a] the transitions 0 -> 1 and 1 -> 0. *)
Definition two_cycle : Model :=
  run (addTransition 1 0 ["a"])
    (run (addTransition 0 1 ["a"])
       (run (addState []) (run (addState []) []))).

(** A model every state of which holds a [Map] (as [addState] creates
    them). *)
Definition maps_only (model : Model) : Prop :=
  forall i st, state_at model i = Some st ->
               exists s, successors st = SuccMap s.

(** The node [{prop: a}] naming agent [a] in a group. *)
Definition agent_node (a : string) : jsval := obj k_prop (JStr a).

(** Worlds 0, 1, 2; agent [a] goes 0 -> 1 -> 2, agent [b] goes 0 -> 2. *)
Definition two_agents : Model :=
  run (addTransition 0 2 ["b"])
    (run (addTransition 1 2 ["a"])
       (run (addTransition 0 1 ["a"])
          (run (addState []) (run (addState []) (run (addState []) []))))).

(** The nodes [Know(a, f)], [Nec(f)], [Poss(f)] and [Prop(p)]. *)
Definition Know (a : string) (f : jsval) : jsval :=
  obj k_know (JArr [agent_node a; f]).
Definition Nec (f : jsval) : jsval := obj k_nec f.
Definition Poss (f : jsval) : jsval := obj k_poss f.
Definition Prop_ (p : string) : jsval := obj k_prop (JStr p).

(** One world, no transition. *)
Definition one_world : Model := run (addState []) [].

(** Worlds 0, 1, 2 with [p] true at world 1 only; agent [a] goes 0 -> 1 and
    agent [b] goes 0 -> 2. *)
Definition three_worlds : Model :=
  run (addTransition 0 2 ["b"])
    (run (addTransition 0 1 ["a"])
       (run (addState [])
          (run (addState [("p", JBool true)]) (run (addState []) [])))).

(** Worlds 0 and 1 and the transition 0 -> 1 for agent [a]. *)
Definition one_edge : Model :=
  run (addTransition 0 1 ["a"]) (run (addState []) (run (addState []) [])).

(** The example of [getModelString]'s documentation, with a second
    proposition: world 0 with [q] and [p] true and the successors 0 and 2
    for agent [a], a removed world 1, and a world 2. *)
Definition documented_model : Model :=
  run (removeState 1)
    (run (addTransition 0 2 ["a"])
       (run (addTransition 0 0 ["a"])
          (run (addState [])
             (run (addState [])
                (run (addState [("q", JBool true); ("p", JBool true)]) []))))).

(** Induction over a value and the values it holds. *)
Section jsval_induction.

Variable P : jsval -> Prop.
Hypothesis P_undefined : P JUndefined.
Hypothesis P_null : P JNull.
Hypothesis P_bool : forall b, P (JBool b).
Hypothesis P_num : forall n, P (JNum n).
Hypothesis P_str : forall s, P (JStr s).
Hypothesis P_arr : forall l, Forall P l -> P (JArr l).
Hypothesis P_obj : forall o, (forall k, P (o k)) -> P (JObj o).

Fixpoint jsval_tree_ind (v : jsval) : P v :=
  match v with
  | JUndefined => P_undefined
  | JNull => P_null
  | JBool b => P_bool b
  | JNum n => P_num n
  | JStr s => P_str s
  | JArr l =>
      P_arr l ((fix all (l : list jsval) : Forall P l :=
                  match l with
                  | [] => Forall_nil P
                  | x :: r => Forall_cons x (jsval_tree_ind x) (all r)
                  end) l)
  | JObj o => P_obj o (fun k => jsval_tree_ind (o k))
  end.

End jsval_induction.

(** The node kinds of a formula tree: a proposition, a unary operator over
    a formula, a binary operator over an array of exactly two formulas. *)
Definition unary_keys : list key := [k_neg; k_nec; k_poss].

Definition binary_keys : list key :=
  [k_conj; k_disj; k_impl; k_equi; k_know; k_group; k_eknow; k_distrib; k_common].

Inductive recognized : jsval -> Prop :=
| recognized_prop : forall o,
    truthy (o k_prop) = true -> recognized (JObj o)
| recognized_unary : forall o k,
    In k unary_keys -> recognized (o k) -> recognized (JObj o)
| recognized_binary : forall o k a b,
    In k binary_keys -> o k = JArr [a; b] ->
    recognized a -> recognized b -> recognized (JObj o).

(** What [_jsonToASCII] converts is a tree of recognized nodes. *)
Definition converts_recognized (json : jsval) : Prop :=
  forall r, _jsonToASCII json = Ret r -> recognized json.

(** A call of one of the model's mutating methods. *)
Inductive call : Type :=
| call_addTransition (source target : nat) (agentList : list string)
| call_removeTransition (source target : nat) (agentList : list jsval)
| call_addState (assignment : object)
| call_editState (state : nat) (assignment : object)
| call_removeState (state : nat)
| call_loadFromModelString (modelString : string).

Definition perform (c : call) : method unit :=
  match c with
  | call_addTransition source target agentList =>
      addTransition source target agentList
  | call_removeTransition source target agentList =>
      removeTransition source target agentList
  | call_addState assignment => addState assignment
  | call_editState state assignment => editState state assignment
  | call_removeState state => removeState state
  | call_loadFromModelString modelString => loadFromModelString modelString
  end.

(** The states after a sequence of calls (a call that throws leaves the
    states as they are at the throw). *)
Definition after (calls : list call) (m : Model) : Model :=
  fold_left (fun m c => run (perform c) m) calls m.

(** Every entry an assignment stores has the value [true]. *)
Definition true_entries (o : object) : Prop :=
  Forall (fun entry => snd entry = JBool true) o.

Definition stores_true (state : option object) : Prop :=
  match state with
  | Some o => true_entries o
  | None => True
  end.

Definition only_true (m : Model) : Prop := Forall stores_true (getStates m).

(** The call [c], made on the states [m], sets proposition [p] true at
    world [i]: [addState] creates world [i] from an assignment with [p]
    true, [editState] is handed [p] true for world [i], or the model string
    lists [p] in its token for world [i]. *)
Definition sets_true (c : call) (m : Model) (p : string) (i : nat) : Prop :=
  match c with
  | call_addState assignment =>
      i = List.length m /\ exists v, In (p, v) assignment /\ is_true v = true
  | call_editState state assignment =>
      state = i /\ exists v, In (p, v) assignment /\ is_true v = true
  | call_loadFromModelString modelString =>
      exists token props succs,
        nth_error (removelast (split ";" modelString)) i = Some token
        /\ match_A_S token = Some (props, succs)
        /\ In p (split_commas props)
  | _ => False
  end.

Fixpoint never_set_true (p : string) (i : nat) (calls : list call) (m : Model)
  : Prop :=
  match calls with
  | [] => True
  | c :: rest =>
      ~ sets_true c m p i /\ never_set_true p i rest (run (perform c) m)
  end.

(** [p] has no entry at world [i]. *)
Definition absent (p : string) (i : nat) (states : list (option object)) : Prop :=
  forall o, nth_error states i = Some (Some o) -> has_own p o = false.

(** The assignments [addState], [editState] and [loadFromModelString]
    build. *)
Definition processed (assignment acc : object) : object :=
  fold_left (fun acc '(propvar, v) =>
               if is_true v then assign_true propvar acc else acc)
            assignment acc.

Definition edited (assignment acc : object) : object :=
  fold_left (fun acc '(propvar, v) =>
               if is_true v then assign_true propvar acc
               else if is_false v then obj_delete propvar acc
               else acc)
            assignment acc.

Definition listed (props : list string) (acc : object) : object :=
  fold_left (fun acc propvar => assign_true propvar acc) props acc.

(** The method leaves the assignments ([getStates]) as they are. *)
Definition keeps_assignments {A : Type} (c : method A) : Prop :=
  forall m, getStates (snd (c m)) = getStates m.

(** The state a token of the model string restores. *)
Definition restored (token : string) : option object :=
  match token with
  | EmptyString => None
  | _ => match match_A_S token with
         | Some (props, _) => Some (listed (split_commas props) [])
         | None => None
         end
  end.

(** What [addTransition] makes of a Map: [target] appended to the array of
    each agent of [agentList] in turn. *)
Definition add_all (target : nat) (agentList : list string) (s : Map) : Map :=
  fold_left (fun s agent =>
               match map_get agent s with
               | Some L => map_set agent (L ++ [target]) s
               | None => map_set agent [target] s
               end) agentList s.

(** The successor array of an agent, empty when the Map has no entry. *)
Definition entry_or_empty (a : string) (s : Map) : list nat :=
  match map_get a s with
  | Some L => L
  | None => []
  end.

(** The remaining nodes of a formula tree. *)
Definition Neg (f : jsval) : jsval := obj k_neg f.
Definition Conj (f g : jsval) : jsval := obj k_conj (JArr [f; g]).
Definition Disj (f g : jsval) : jsval := obj k_disj (JArr [f; g]).
Definition Impl (f g : jsval) : jsval := obj k_impl (JArr [f; g]).
Definition Equi (f g : jsval) : jsval := obj k_equi (JArr [f; g]).
Definition Group (a rest : jsval) : jsval := obj k_group (JArr [a; rest]).
Definition EveryoneKnows (group f : jsval) : jsval := obj k_eknow (JArr [group; f]).
Definition Distributed (group f : jsval) : jsval := obj k_distrib (JArr [group; f]).
Definition Common (group f : jsval) : jsval := obj k_common (JArr [group; f]).

(** The right-nested group of the agents [a], then [rest]: a single agent
    leaf when [rest] is empty. *)
Fixpoint group_of (a : string) (rest : list string) : jsval :=
  match rest with
  | [] => agent_node a
  | b :: rest' => Group (agent_node a) (group_of b rest')
  end.

(** Formulas as the parser builds them: one node kind per operator, a
    group of at least two agents for the group operators. *)
Inductive formula : Type :=
| FProp (p : string)
| FNeg (f : formula)
| FNec (f : formula)
| FPoss (f : formula)
| FConj (f g : formula)
| FDisj (f g : formula)
| FImpl (f g : formula)
| FEqui (f g : formula)
| FKnow (a : string) (f : formula)
| FEveryone (a b : string) (rest : list string) (f : formula)
| FDistributed (a b : string) (rest : list string) (f : formula)
| FCommon (a b : string) (rest : list string) (f : formula).

(** The tree of a formula. *)
Fixpoint to_json (f : formula) : jsval :=
  match f with
  | FProp p => Prop_ p
  | FNeg f => Neg (to_json f)
  | FNec f => Nec (to_json f)
  | FPoss f => Poss (to_json f)
  | FConj f g => Conj (to_json f) (to_json g)
  | FDisj f g => Disj (to_json f) (to_json g)
  | FImpl f g => Impl (to_json f) (to_json g)
  | FEqui f g => Equi (to_json f) (to_json g)
  | FKnow a f => Know a (to_json f)
  | FEveryone a b rest f => EveryoneKnows (group_of a (b :: rest)) (to_json f)
  | FDistributed a b rest f => Distributed (group_of a (b :: rest)) (to_json f)
  | FCommon a b rest f => Common (group_of a (b :: rest)) (to_json f)
  end.

Definition render_group (a : string) (rest : list string) : string :=
  concat " , " (a :: rest).

(** The formula written out: prefix operators without parentheses, binary
    operators inside parentheses. *)
Fixpoint render (f : formula) : string :=
  (match f with
   | FProp p => p
   | FNeg f => "~" ++ render f
   | FNec f => "[]" ++ render f
   | FPoss f => "<>" ++ render f
   | FConj f g => "(" ++ render f ++ " & " ++ render g ++ ")"
   | FDisj f g => "(" ++ render f ++ " | " ++ render g ++ ")"
   | FImpl f g => "(" ++ render f ++ " -> " ++ render g ++ ")"
   | FEqui f g => "(" ++ render f ++ " <-> " ++ render g ++ ")"
   | FKnow a f => "(" ++ a ++ " ? " ++ render f ++ ")"
   | FEveryone a b rest f =>
       "(" ++ render_group a (b :: rest) ++ " # " ++ render f ++ ")"
   | FDistributed a b rest f =>
       "(" ++ render_group a (b :: rest) ++ " / " ++ render f ++ ")"
   | FCommon a b rest f =>
       "(" ++ render_group a (b :: rest) ++ " § " ++ render f ++ ")"
   end)%string.

Definition named (s : string) : Prop := s <> EmptyString.

(** Every proposition and every agent of the formula has a non-empty
    name. *)
Fixpoint names_ok (f : formula) : Prop :=
  match f with
  | FProp p => named p
  | FNeg f | FNec f | FPoss f => names_ok f
  | FConj f g | FDisj f g | FImpl f g | FEqui f g => names_ok f /\ names_ok g
  | FKnow a f => named a /\ names_ok f
  | FEveryone a b rest f | FDistributed a b rest f | FCommon a b rest f =>
      Forall named (a :: b :: rest) /\ names_ok f
  end.

(** The formula uses no group operator. *)
Fixpoint modal (f : formula) : Prop :=
  match f with
  | FProp _ => True
  | FNeg f | FNec f | FPoss f | FKnow _ f => modal f
  | FConj f g | FDisj f g | FImpl f g | FEqui f g => modal f /\ modal g
  | FEveryone _ _ _ _ | FDistributed _ _ _ _ | FCommon _ _ _ _ => False
  end.

(** Every transition of the model leads to a world that exists. *)
Definition closed_model (m : Model) : Prop :=
  forall i st s a L x,
    state_at m i = Some st -> successors st = SuccMap s ->
    In (a, L) s -> In x L -> exists st', state_at m x = Some st'.

(** The successor indices a token of the model string lists. *)
Definition listed_successors (token : string) : list string :=
  match match_A_S token with
  | Some (_, succs) => split_commas succs
  | None => []
  end.

(** The state [loadFromModelString] pushes for a token. *)
Definition restored_state (token : string) : option State :=
  match restored token with
  | Some o => Some (mkState o SuccObject)
  | None => None
  end.

(** A name the model string can carry: non-empty, of word characters. *)
Definition word_name (s : string) : Prop :=
  s <> EmptyString /\ all_chars is_word s = true.

(** The names are in the order in which an object lists its properties:
    none of them would be listed before one that precedes it. *)
Fixpoint enumeration_order (keys : list string) : Prop :=
  match keys with
  | [] => True
  | k :: rest =>
      Forall (fun k' => before k' k = false) rest /\ enumeration_order rest
  end.

(** The list stands for an object that assignments of [true] and deletions
    build: each name once, in the order of enumeration, and none of them
    [__proto__]. *)
Definition well_formed (o : object) : Prop :=
  NoDup (obj_keys o)
  /\ enumeration_order (obj_keys o)
  /\ ~ In "__proto__" (obj_keys o).

Definition stores_well_formed (state : option object) : Prop :=
  match state with
  | Some o => well_formed o
  | None => True
  end.

(** A state whose assignment the methods can have built, with [true]
    entries only, under names the model string can carry. *)
Definition printable (state : option State) : Prop :=
  match state with
  | Some st =>
      true_entries (assignment st)
      /\ well_formed (assignment st)
      /\ Forall word_name (obj_keys (assignment st))
  | None => True
  end.

(** The token [getModelString] writes for a state. *)
Definition token_of (state : option State) : string :=
  match state with
  | Some st => ("A" ++ concat "," (obj_keys (assignment st)) ++ "S")%string
  | None => EmptyString
  end.

(** The character [c] does not occur in [s]. *)
Definition without (c : ascii) (s : string) : Prop :=
  all_chars (fun x => negb (Ascii.eqb x c)) s = true.

(** An agent has an entry in the relation of some world of the list. *)
Definition has_entry (a : string) (states : Model) : Prop :=
  exists st s, In (Some st) states /\ successors st = SuccMap s
               /\ map_get a s <> None.

(** * Properties *)

(** ** Reachability closure *)

Lemma existsb_eqb_In (s : nat) (V : list nat) :
  existsb (Nat.eqb s) V = true <-> In s V.
Proof.
  rewrite existsb_exists. split.
  - intros [x [Hin Heq]]. apply Nat.eqb_eq in Heq. now subst.
  - intros Hin. exists s. split; [assumption | apply Nat.eqb_refl].
Qed.

Section ClosureTermination.

Variable model : Model.
Variable agent : jsval.

Lemma weight_visit_one (V : list nat) (s i : nat) :
  weight model agent (V ++ [s]) i <= weight model agent V i.
Proof.
  unfold weight. rewrite existsb_app.
  destruct (existsb (Nat.eqb i) V); simpl; [lia|].
  destruct (i =? s); simpl; lia.
Qed.

Lemma weight_visit (V : list nat) (s : nat) (idx : list nat) :
  list_sum (map (weight model agent (V ++ [s])) idx)
  <= list_sum (map (weight model agent V) idx).
Proof.
  induction idx as [|i idx IH]; simpl; [lia|].
  pose proof (weight_visit_one V s i). lia.
Qed.

Lemma weight_visit_new (V : list nat) (s : nat) (idx : list nat) :
  existsb (Nat.eqb s) V = false -> In s idx ->
  list_sum (map (weight model agent (V ++ [s])) idx) + out_degree model agent s
  <= list_sum (map (weight model agent V) idx).
Proof.
  intros Hnew. induction idx as [|i idx IH]; simpl; [tauto|].
  intros [-> | Hin].
  - pose proof (weight_visit V s idx).
    assert (weight model agent (V ++ [s]) s = 0) as ->.
    { unfold weight. rewrite existsb_app. simpl.
      rewrite Nat.eqb_refl. now rewrite orb_true_r. }
    assert (weight model agent V s = out_degree model agent s) as ->.
    { unfold weight. now rewrite Hnew. }
    lia.
  - specialize (IH Hin). pose proof (weight_visit_one V s i). lia.
Qed.

Lemma successors_in_range (s : nat) (L : list nat) :
  getSuccessorsOf model s agent = Ret (Some L) ->
  In s (seq 0 (List.length model)).
Proof.
  unfold getSuccessorsOf, state_at. intros H.
  apply in_seq. split; [lia|]. simpl.
  apply nth_error_Some. destruct (nth_error model s); discriminate.
Qed.

(** The loop of [getAllSuccessorsOf] ends within [pending] iterations,
    whatever the relation (cyclic or not). *)
Lemma closure_loop_terminates (fuel : nat) :
  forall V C, pending model agent V C < fuel ->
              exists r, closure_loop model fuel agent V C = Some r.
Proof.
  induction fuel as [|fuel IH]; intros V C Hlt; [lia|].
  destruct C as [|s rest]; simpl; [eauto|].
  destruct (s =? 0); [eauto|].
  unfold pending in Hlt. simpl in Hlt.
  destruct (existsb (Nat.eqb s) V) eqn:Hvis.
  - apply IH. unfold pending. lia.
  - destruct (getSuccessorsOf model s agent) as [[L|]|e] eqn:Hsucc; [| |eauto].
    + apply IH. unfold pending. rewrite length_app.
      pose proof (weight_visit_new V s _ Hvis (successors_in_range s L Hsucc))
        as Hw.
      unfold out_degree in Hw at 1. rewrite Hsucc in Hw. lia.
    + apply IH. unfold pending.
      pose proof (weight_visit V s (seq 0 (List.length model))). lia.
Qed.

(** Hence the fuel [getAllSuccessorsOf] gives the loop is never used up. *)
Lemma getAllSuccessorsOf_loop (state : nat) (C : list nat) :
  getSuccessorsOf model state agent = Ret (Some C) ->
  closure_loop model (S (pending model agent [] C)) agent [] C
  = Some (getAllSuccessorsOf model state agent).
Proof.
  intros H. unfold getAllSuccessorsOf. rewrite H. unfold bind.
  destruct (closure_loop_terminates (S (pending model agent [] C)) [] C)
    as [r Hr].
  - lia.
  - now rewrite Hr.
Qed.

End ClosureTermination.

Lemma reachable_then_edge (model : Model) (agent : string) (i j k : nat) :
  reachable model agent i j -> edge model agent j k -> reachable model agent i k.
Proof.
  intros Hij Hjk. induction Hij as [i j H | i j l H Hjl IH].
  - eapply reach_more; [exact H|]. now apply reach_one.
  - eapply reach_more; [exact H|]. now apply IH.
Qed.

(** The loop visits no world twice, and every world it visits is reachable
    from the start world [i] in one or more steps. *)
Lemma closure_loop_visits (model : Model) (agent : string) (i : nat) (fuel : nat) :
  forall V C W,
    NoDup V ->
    (forall x, In x V -> reachable model agent i x) ->
    (forall x, In x C -> reachable model agent i x) ->
    closure_loop model fuel (JStr agent) V C = Some (Ret W) ->
    NoDup W /\ forall x, In x W -> reachable model agent i x.
Proof.
  induction fuel as [|fuel IH]; intros V C W Hdup HV HC; simpl; [discriminate|].
  destruct C as [|s rest]; [intros [= <-]; now split|].
  destruct (s =? 0); [intros [= <-]; now split|].
  assert (forall x, In x rest -> reachable model agent i x) as Hrest
    by (intros x Hx; apply HC; now right).
  destruct (existsb (Nat.eqb s) V) eqn:Hvis; [now apply IH|].
  assert (NoDup (V ++ [s])) as Hdup'.
  { apply NoDup_app; [assumption | repeat constructor; intros [] |].
    intros x Hx [<- | []]. apply existsb_eqb_In in Hx. congruence. }
  assert (forall x, In x (V ++ [s]) -> reachable model agent i x) as HV'.
  { intros x Hx. apply in_app_iff in Hx. destruct Hx as [Hx | [<- | []]].
    - now apply HV.
    - apply HC. now left. }
  destruct (getSuccessorsOf model s (JStr agent)) as [[L|]|e] eqn:Hsucc;
    [| |discriminate].
  - apply IH; try assumption.
    intros x Hx. apply in_app_iff in Hx. destruct Hx as [Hx | Hx].
    + now apply Hrest.
    + apply (reachable_then_edge model agent i s x).
      * apply HC. now left.
      * exists L. now split.
  - now apply IH.
Qed.

Lemma getAllSuccessorsOf_visits (model : Model) (agent : string) (i : nat)
    (W : list nat) :
  getAllSuccessorsOf model i (JStr agent) = Ret W ->
  NoDup W /\ forall x, In x W -> reachable model agent i x.
Proof.
  intros HW.
  destruct (getSuccessorsOf model i (JStr agent)) as [[C|]|e] eqn:HC.
  - pose proof (getAllSuccessorsOf_loop model (JStr agent) i C HC) as Hloop.
    rewrite HW in Hloop.
    apply (closure_loop_visits model agent i
             (S (pending model (JStr agent) [] C)) [] C W).
    + constructor.
    + intros x [].
    + intros x Hx. apply reach_one. exists C. now split.
    + exact Hloop.
  - unfold getAllSuccessorsOf in HW. rewrite HC in HW. simpl in HW.
    injection HW as <-. split; [constructor | intros x []].
  - unfold getAllSuccessorsOf in HW. rewrite HC in HW. discriminate.
Qed.

(** C1, on the model with the 2-cycle 0 -> 1 -> 0 for agent [a]:
    [getAllSuccessorsOf(0, 'a')] returns [[1]], although world 0 is
    reachable from world 0 in two steps; the loop stops when the index 0
    comes to the head of [C]. *)
Theorem getAllSuccessorsOf_two_cycle :
  getAllSuccessorsOf two_cycle 0 (JStr "a") = Ret [1]
  /\ reachable two_cycle "a" 0 0
  /\ reachable two_cycle "a" 0 1.
Proof.
  split; [reflexivity|].
  assert (edge two_cycle "a" 0 1) as H01.
  { exists [1]. split; [reflexivity | now left]. }
  assert (edge two_cycle "a" 1 0) as H10.
  { exists [0]. split; [reflexivity | now left]. }
  split.
  - eapply reach_more; [exact H01|]. now apply reach_one.
  - now apply reach_one.
Qed.




Lemma In_push_new (F : list nat) (s x : nat) :
  In x (push_new F s) <-> In x F \/ x = s.
Proof.
  unfold push_new. destruct (existsb (Nat.eqb s) F) eqn:E.
  - apply existsb_eqb_In in E. split; [tauto|]. intros [H | ->]; assumption.
  - rewrite in_app_iff. simpl. intuition.
Qed.

Lemma In_fold_push_new (array : list nat) :
  forall F x, In x (fold_left push_new array F) <-> In x F \/ In x array.
Proof.
  induction array as [|s array IH]; intros F x; simpl; [tauto|].
  rewrite IH, In_push_new. intuition.
Qed.



(** ** The truth evaluator *)

(** X27: at a world that exists and holds a Map (as every world that
    [addState] creates does), when the Map has no entry for agent [a] (or an
    entry that lists no world), [Know(a, f)] evaluates to [true], whatever
    [f] is. *)
Theorem know_without_successors :
  forall (global_model model : Model) (state : nat) (st : State) (s : Map)
         (a : string) (f : jsval),
    state_at model state = Some st ->
    successors st = SuccMap s ->
    map_get a s = None \/ map_get a s = Some [] ->
    _truth global_model model state (Know a f) = Ret (JBool true).
Proof.
  intros G model state st s a f Hst Hs Hnone.
  unfold Know, agent_node. simpl.
  unfold getSuccessorsOf. rewrite Hst, Hs. simpl.
  destruct Hnone as [-> | ->]; reflexivity.
Qed.

Lemma know_without_successors_witness :
  _truth two_agents two_agents 2 (Know "c" (Prop_ "p")) = Ret (JBool true).
Proof.
  apply (know_without_successors two_agents two_agents 2
           {| assignment := []; successors := SuccMap [] |} [] "c" (Prop_ "p"));
    [reflexivity | reflexivity | left; reflexivity].
Defined.

(** C6, on the model that [loadFromModelString('AS;')] leaves: its one
    world holds an empty plain object where [addState] stores a Map; no
    agent has a relation entry there, and [Know(a, f)] throws a TypeError for
    every [f] instead of evaluating to [true].  At the same world as
    [addState] creates it, [Know(a, f)] evaluates to [true]. *)
Theorem know_throws_on_restored_world :
  loadFromModelString "AS;" [] = (Ret tt, [Some (mkState [] SuccObject)])
  /\ getStates (run (loadFromModelString "AS;") []) = getStates one_world
  /\ forall (global_model : Model) (f : jsval),
       _truth global_model (run (loadFromModelString "AS;") []) 0 (Know "a" f)
       = Throw TypeError
       /\ _truth global_model one_world 0 (Know "a" f) = Ret (JBool true).
Proof.
  split; [reflexivity|]. split; [reflexivity|].
  intros G f. split; reflexivity.
Qed.

(** C2, on a world with no transition at all: the successor arrays are
    none ([L.length === 0]), and [Poss(f)] evaluates to [true]. *)
Theorem poss_without_successors :
  getSuccessorsOfOld one_world 0 = Ret (Some [])
  /\ forall (global_model : Model) (o : key -> jsval),
       _truth global_model one_world 0 (Poss (JObj o)) = Ret (JBool true).
Proof.
  split; [reflexivity|]. intros G o. reflexivity.
Qed.

(** C3, on [three_worlds]: [Nec(p)] at world 0 evaluates to [true] although
    world 2, a successor of world 0 for agent [b], does not satisfy [p];
    only the first agent's array ([L[0]]) is tested. *)
Theorem nec_tests_first_agent_only :
  forall global_model : Model,
    getSuccessorsOfOld three_worlds 0 = Ret (Some [[1]; [2]])
    /\ _truth global_model three_worlds 2 (Prop_ "p") = Ret (JBool false)
    /\ _truth global_model three_worlds 0 (Nec (Prop_ "p")) = Ret (JBool true).
Proof.
  intros G. repeat split; reflexivity.
Qed.

Lemma set_nth_state_at {A : Type} (i j : nat) (x : A) (l : list A) :
  nth_error (set_nth i x l) j
  = if Nat.eqb i j then (if j <? List.length l then Some x else None)
    else nth_error l j.
Proof.
  revert i j. induction l as [|y l IH]; intros i j.
  - destruct i, j; simpl; try reflexivity. now destruct (i =? j).
  - destruct i as [|i], j as [|j]; simpl; try reflexivity.
    rewrite IH. destruct (i =? j); reflexivity.
Qed.

Lemma maps_only_tombstone (state : nat) (model : Model) :
  maps_only model -> maps_only (set_nth state None model).
Proof.
  intros Hm i st. unfold state_at. rewrite set_nth_state_at.
  destruct (state =? i).
  - destruct (i <? List.length model); discriminate.
  - apply Hm.
Qed.

(** Handed the array of states as its list of agents, [removeTransition]
    finds none of them in the Map and changes nothing. *)
Lemma removeTransition_states_array (index state : nat) (now : Model) :
  maps_only now ->
  forall array : Model,
    removeTransition index state (map state_value array) now = (Ret tt, now).
Proof.
  intros Hm array. unfold removeTransition.
  destruct (state_at now index) as [st|] eqn:Hst; [|reflexivity].
  destruct (Hm index st Hst) as [s Hs].
  induction array as [|x array IH]; simpl; [reflexivity|].
  unfold then_ at 1. unfold then_ at 1. unfold the_map. rewrite Hst.
  destruct st as [asg succ]. simpl in Hs. subst succ.
  destruct x; simpl; exact IH.
Qed.

(** So [removeState] only puts [null] in the slot: the transitions that
    target the removed world stay. *)
Lemma removeState_only_tombstones (state : nat) (model : Model) :
  maps_only model ->
  removeState state model
  = (Ret tt, match state_at model state with
             | Some _ => set_nth state None model
             | None => model
             end).
Proof.
  intros Hm. unfold removeState.
  destruct (state_at model state); [|reflexivity].
  pose proof (maps_only_tombstone state model Hm) as Hm'.
  generalize (seq 0 (List.length (set_nth state None model))).
  generalize dependent (set_nth state None model). intros now Hnow idx.
  induction idx as [|index idx IH]; simpl; [reflexivity|].
  unfold then_ at 1.
  destruct (state_at now index).
  - rewrite removeTransition_states_array by assumption. exact IH.
  - exact IH.
Qed.

(** C4, on [one_edge]: after [removeState(1)] the slot is [null] and
    [getSuccessorsOf(1, 'a')] is [undefined], but world 0 still lists world 1
    as a successor for agent [a]. *)
Theorem removeState_keeps_transitions :
  let after := run (removeState 1) one_edge in
  nth_error after 1 = Some None
  /\ getSuccessorsOf after 1 (JStr "a") = Ret None
  /\ getSuccessorsOf one_edge 0 (JStr "a") = Ret (Some [1])
  /\ getSuccessorsOf after 0 (JStr "a") = Ret (Some [1]).
Proof.
  repeat split; reflexivity.
Qed.

(** C5, on [documented_model]: the model string holds no relation, and the
    model restored from it keeps the worlds and their valuations but not the
    successors of agent [a] at world 0 (asking for them throws). *)
Theorem model_string_drops_relations :
  let restored :=
    run (loadFromModelString (getModelString documented_model)) documented_model in
  getModelString documented_model = "Aq,pS;;AS;"
  /\ getStates restored = getStates documented_model
  /\ getSuccessorsOf documented_model 0 (JStr "a") = Ret (Some [0; 2])
  /\ getSuccessorsOf restored 0 (JStr "a") = Throw TypeError.
Proof.
  repeat split; reflexivity.
Qed.

(** ** The entry point *)

(** C9, as the checks are ordered: an argument [model] that is no Model
    gives 'Invalid model!'; a Model without a state at the index gives
    'State ... not found!'; with both in order, a [wff] that is no Wff gives
    'Invalid wff!'.  All three hold for every [evaluate], so nothing is
    evaluated in these cases; [truth] is [truth_with] at [_truth]. *)
Theorem truth_validates_in_order :
  forall (evaluate : Model -> nat -> jsval -> result jsval)
         (model : argument) (state : nat) (wff : argument),
    ((forall m, model <> Model_instance m) ->
     truth_with evaluate model state wff = Throw (Error "Invalid model!"))
    /\ (forall m, model = Model_instance m -> state_at m state = None ->
        truth_with evaluate model state wff = Throw (state_not_found state))
    /\ (forall m st, model = Model_instance m -> state_at m state = Some st ->
        (forall w, wff <> Wff_instance w) ->
        truth_with evaluate model state wff = Throw (Error "Invalid wff!")).
Proof.
  intros evaluate model state wff.
  assert (forall m, nth_error (getStates m) state
                    = match nth_error m state with
                      | Some (Some st) => Some (Some (assignment st))
                      | Some None => Some None
                      | None => None
                      end) as Hget.
  { intros m. unfold getStates. rewrite nth_error_map.
    destruct (nth_error m state) as [[st|]|]; reflexivity. }
  repeat split.
  - intros Hno. destruct model as [m| |]; try reflexivity.
    now elim (Hno m).
  - intros m -> Habs. unfold truth_with. rewrite Hget.
    unfold state_at in Habs.
    destruct (nth_error m state) as [[st|]|]; [discriminate| |]; reflexivity.
  - intros m st -> Hst Hno. unfold truth_with. rewrite Hget.
    unfold state_at in Hst.
    destruct (nth_error m state) as [[st'|]|]; try discriminate.
    destruct wff as [|w|]; try reflexivity.
    now elim (Hno w).
Qed.

Lemma truth_validates_in_order_witness :
  truth one_world (other_value (JNum 7)) 0 (other_value JNull)
  = Throw (Error "Invalid model!")
  /\ truth one_world (Model_instance one_world) 1 (other_value JNull)
     = Throw (state_not_found 1)
  /\ truth one_world (Model_instance one_world) 0 (other_value JNull)
     = Throw (Error "Invalid wff!").
Proof.
  split; [|split].
  - apply (proj1 (truth_validates_in_order (_truth one_world)
                    (other_value (JNum 7)) 0 (other_value JNull))).
    intros m. discriminate.
  - apply (proj1 (proj2 (truth_validates_in_order (_truth one_world)
                           (Model_instance one_world) 1 (other_value JNull)))
             one_world);
      reflexivity.
  - apply (proj2 (proj2 (truth_validates_in_order (_truth one_world)
                           (Model_instance one_world) 0 (other_value JNull)))
             one_world (mkState [] (SuccMap [])));
      [reflexivity | reflexivity | intros w; discriminate].
Defined.

(** C9 as stated fails where two checks fail at once: with a Model, an
    absent world and a [wff] that is no Wff, the error is 'State 0 not
    found!' and not 'Invalid wff!'. *)
Lemma invalid_wff_is_checked_last :
  ~ (forall (global_model : Model) (model : argument) (state : nat)
            (wff : argument),
       (forall w, wff <> Wff_instance w) ->
       truth global_model model state wff = Throw (Error "Invalid wff!")).
Proof.
  intros H.
  specialize (H [] (Model_instance []) 0 (other_value JNull)).
  assert (forall w, other_value JNull <> Wff_instance w) as Hno
    by (intros w; discriminate).
  specialize (H Hno). vm_compute in H. discriminate.
Qed.

(** ** The [Wff] constructor *)

Lemma binary_node_returns (c : jsval) (open sep close : string)
    (otherwise : result jsval) (r : jsval) :
  binary_node c
    (fun a b => x <- _jsonToASCII a ;; y <- _jsonToASCII b ;;
                Ret (infix open sep close x y))
    (Throw invalid_json) otherwise = Ret r ->
  (exists a b x y, c = JArr [a; b]
                   /\ _jsonToASCII a = Ret x /\ _jsonToASCII b = Ret y)
  \/ otherwise = Ret r.
Proof.
  unfold binary_node.
  destruct c as [| | | |s|l|o]; try (intros H; now right).
  - destruct (js_length s =? 2); [discriminate | intros H; now right].
  - destruct l as [|a [|b [|c l]]]; try (intros H; now right).
    intros H. left. exists a, b.
    destruct (_jsonToASCII a) as [x|]; [|discriminate].
    destruct (_jsonToASCII b) as [y|]; [|discriminate].
    eauto.
Qed.

Lemma jsonToASCII_recognized_elements :
  forall json : jsval,
    converts_recognized json
    /\ match json with
       | JArr l => Forall converts_recognized l
       | _ => True
       end.
Proof.
  intros json.
  induction json as [| | | | |l IH|o IH] using jsval_tree_ind;
    try (split; [intros r; discriminate | exact I]).
  - split; [intros r; discriminate|].
    eapply Forall_impl; [|exact IH]. intros x [Hx _]. exact Hx.
  - split; [|exact I]. intros r. simpl.
    destruct (truthy (o k_prop)) eqn:Hprop;
      [intros _; now apply recognized_prop|].
    assert (forall k x, In k unary_keys -> _jsonToASCII (o k) = Ret x ->
                        recognized (JObj o)) as Hun.
    { intros k x Hk Hx. apply (recognized_unary o k Hk).
      apply (proj1 (IH k) x Hx). }
    destruct (truthy (o k_neg)).
    { destruct (_jsonToASCII (o k_neg)) eqn:E; [|discriminate]. intros _.
      apply (Hun k_neg a); [simpl; tauto | assumption]. }
    destruct (truthy (o k_nec)).
    { destruct (_jsonToASCII (o k_nec)) eqn:E; [|discriminate]. intros _.
      apply (Hun k_nec a); [simpl; tauto | assumption]. }
    destruct (truthy (o k_poss)).
    { destruct (_jsonToASCII (o k_poss)) eqn:E; [|discriminate]. intros _.
      apply (Hun k_poss a); [simpl; tauto | assumption]. }
    assert (forall k, In k binary_keys ->
              (exists a b x y, o k = JArr [a; b]
                 /\ _jsonToASCII a = Ret x /\ _jsonToASCII b = Ret y) ->
              recognized (JObj o)) as Hbin.
    { intros k Hk (a & b & x & y & Hok & Ha & Hb).
      pose proof (proj2 (IH k)) as IHk. rewrite Hok in IHk.
      apply (recognized_binary o k a b Hk Hok).
      - apply Forall_inv in IHk. exact (IHk x Ha).
      - apply Forall_inv_tail, Forall_inv in IHk. exact (IHk y Hb). }
    intros H.
    repeat (apply binary_node_returns in H;
            destruct H as [H | H];
            [eapply Hbin; [|exact H]; simpl; tauto|]).
    discriminate.
Qed.

(** C10: a value of type object from which [new Wff] constructs a Wff is a
    tree of recognized nodes (and is the tree the Wff holds); for one that
    is not, the constructor throws. *)
Theorem new_Wff_recognized :
  forall (parse : jsval -> result jsval) (asciiOrJSON : jsval),
    typeof_object asciiOrJSON = true ->
    (forall w, new_Wff parse asciiOrJSON = Ret w ->
               _json w = asciiOrJSON /\ recognized (_json w))
    /\ (~ recognized asciiOrJSON ->
        exists e, new_Wff parse asciiOrJSON = Throw e).
Proof.
  intros parse j Hobj.
  assert (forall w, new_Wff parse j = Ret w -> _json w = j /\ recognized (_json w))
    as Hsound.
  { intros w. unfold new_Wff. rewrite Hobj. simpl bind.
    destruct (_jsonToASCII j) as [ascii|] eqn:Hascii; [|discriminate]. simpl bind.
    destruct (_asciiToLaTeX ascii); [|discriminate]. simpl bind.
    destruct (_asciiToUnicode ascii); [|discriminate]. simpl bind.
    intros [= <-]. simpl. split; [reflexivity|].
    exact (proj1 (jsonToASCII_recognized_elements j) ascii Hascii). }
  split; [exact Hsound|].
  intros Hnot. destruct (new_Wff parse j) as [w|e] eqn:Hnew; [|eauto].
  destruct (Hsound w eq_refl) as [Hj Hrec]. rewrite Hj in Hrec. contradiction.
Qed.

Lemma new_Wff_recognized_witness :
  recognized (Know "a" (Nec (Prop_ "p")))
  /\ exists e, new_Wff (fun _ => Throw TypeError) (obj k_conj (JArr [Prop_ "p"]))
               = Throw e.
Proof.
  split.
  - pose (j := Know "a" (Nec (Prop_ "p"))).
    pose (w := mkWff (JStr "(a ? []p)") j "(a ? \Box{}p)" "(a ? □p)").
    exact (proj2 (proj1 (new_Wff_recognized (fun _ => Throw TypeError) j eq_refl)
                    w eq_refl)).
  - apply (proj2 (new_Wff_recognized (fun _ => Throw TypeError)
                    (obj k_conj (JArr [Prop_ "p"])) eq_refl)).
    intros H. inversion H as [o Hp | o k Hk Hrec | o k a b Hk Hok Ha Hb]; subst.
    + discriminate.
    + simpl in Hk. destruct Hk as [<- | [<- | [<- | []]]]; inversion Hrec.
    + simpl in Hk.
      repeat (destruct Hk as [<- | Hk]; [discriminate|]). destruct Hk.
Defined.

(** ** Valuations hold true propositions only *)

Lemma obj_get_update (p q : string) (v : jsval) (o : object) :
  has_own q o = true ->
  obj_get p (update q v o) = if String.eqb p q then v else obj_get p o.
Proof.
  unfold has_own. induction o as [|[k w] o IH]; simpl; [discriminate|].
  destruct (String.eqb q k) eqn:Hqk; simpl.
  - intros _. apply String.eqb_eq in Hqk. subst k.
    destruct (String.eqb p q); reflexivity.
  - intros Hown. rewrite (IH Hown).
    destruct (String.eqb p k) eqn:Hpk; [|reflexivity].
    apply String.eqb_eq in Hpk. subst k.
    rewrite String.eqb_sym in Hqk. now rewrite Hqk.
Qed.

Lemma obj_get_create (p q : string) (v : jsval) (o : object) :
  has_own q o = false ->
  obj_get p (create q v o) = if String.eqb p q then v else obj_get p o.
Proof.
  unfold has_own. induction o as [|[k w] o IH]; simpl.
  - intros _. reflexivity.
  - intros Hown. apply orb_false_iff in Hown. destruct Hown as [Hqk Hown].
    assert (String.eqb p k = true -> String.eqb p q = false) as Hpq.
    { intros Hpk. apply String.eqb_eq in Hpk. subst k.
      now rewrite String.eqb_sym. }
    destruct (before q k); simpl.
    + destruct (String.eqb p q) eqn:E; [reflexivity|]. reflexivity.
    + rewrite (IH Hown). destruct (String.eqb p k) eqn:Hpk; [|reflexivity].
      now rewrite (Hpq eq_refl).
Qed.

Lemma obj_get_set (p q : string) (v : jsval) (o : object) :
  obj_get p (obj_set q v o) = if String.eqb p q then v else obj_get p o.
Proof.
  unfold obj_set. destruct (has_own q o) eqn:Hown.
  - now apply obj_get_update.
  - now apply obj_get_create.
Qed.

Lemma obj_get_delete (p q : string) (o : object) :
  obj_get p (obj_delete q o) = if String.eqb p q then JUndefined else obj_get p o.
Proof.
  induction o as [|[k w] o IH]; simpl.
  - now destruct (String.eqb p q).
  - destruct (String.eqb q k) eqn:Hqk; simpl.
    + apply String.eqb_eq in Hqk. subst k. rewrite IH.
      destruct (String.eqb p q); reflexivity.
    + rewrite IH. destruct (String.eqb p k) eqn:Hpk; [|reflexivity].
      apply String.eqb_eq in Hpk. subst k.
      rewrite String.eqb_sym in Hqk. now rewrite Hqk.
Qed.

Lemma has_own_update (p q : string) (v : jsval) (o : object) :
  has_own p (update q v o) = has_own p o.
Proof.
  unfold has_own. induction o as [|[k w] o IH]; simpl; [reflexivity|].
  destruct (String.eqb q k) eqn:Hqk; simpl.
  - apply String.eqb_eq in Hqk. now subst k.
  - now rewrite IH.
Qed.

Lemma has_own_create (p q : string) (v : jsval) (o : object) :
  has_own p (create q v o) = String.eqb p q || has_own p o.
Proof.
  unfold has_own. induction o as [|[k w] o IH]; simpl; [reflexivity|].
  destruct (before q k); simpl; [reflexivity|].
  rewrite IH. now rewrite orb_comm, <- orb_assoc, (orb_comm (existsb _ o)).
Qed.

Lemma has_own_set (p q : string) (v : jsval) (o : object) :
  has_own p (obj_set q v o) = String.eqb p q || has_own p o.
Proof.
  unfold obj_set. destruct (has_own q o) eqn:Hown.
  - rewrite has_own_update. destruct (String.eqb p q) eqn:E; [|reflexivity].
    apply String.eqb_eq in E. subst q. now rewrite Hown.
  - apply has_own_create.
Qed.

Lemma has_own_delete (p q : string) (o : object) :
  has_own p (obj_delete q o) = negb (String.eqb p q) && has_own p o.
Proof.
  unfold has_own. induction o as [|[k w] o IH]; simpl.
  - now rewrite andb_false_r.
  - destruct (String.eqb q k) eqn:Hqk; simpl.
    + apply String.eqb_eq in Hqk. subst k. rewrite IH.
      now destruct (String.eqb p q).
    + rewrite IH. destruct (String.eqb p k) eqn:Hpk; simpl.
      * apply String.eqb_eq in Hpk. subst k.
        rewrite String.eqb_sym in Hqk. now rewrite Hqk.
      * reflexivity.
Qed.

Lemma true_entries_set (k : string) (v : jsval) (o : object) :
  v = JBool true -> true_entries o -> true_entries (obj_set k v o).
Proof.
  intros Hv Ho. unfold obj_set. destruct (has_own k o).
  - induction Ho as [|[k' w] o Hw Ho IH]; simpl; [constructor|].
    destruct (String.eqb k k'); constructor; assumption.
  - induction Ho as [|[k' w] o Hw Ho IH]; simpl.
    + repeat constructor. exact Hv.
    + destruct (before k k'); repeat constructor; assumption.
Qed.

Lemma true_entries_delete (k : string) (o : object) :
  true_entries o -> true_entries (obj_delete k o).
Proof.
  intros Ho. induction Ho as [|[k' w] o Hw Ho IH]; simpl.
  - constructor.
  - destruct (String.eqb k k'); [assumption | constructor; assumption].
Qed.

Lemma true_entries_assign (k : string) (o : object) :
  true_entries o -> true_entries (assign_true k o).
Proof.
  intros Ho. unfold assign_true.
  destruct (String.eqb k "__proto__" && negb (has_own k o)); [exact Ho|].
  now apply true_entries_set.
Qed.

(** An assignment of [true] that creates no property is one to the name
    [__proto__]. *)
Lemma has_own_assign (p q : string) (o : object) :
  has_own p (assign_true q o)
  = if String.eqb q "__proto__" && negb (has_own q o) then has_own p o
    else String.eqb p q || has_own p o.
Proof.
  unfold assign_true.
  destruct (String.eqb q "__proto__" && negb (has_own q o)); [reflexivity|].
  apply has_own_set.
Qed.

Lemma has_own_assign_other (p q : string) (o : object) :
  String.eqb p q = false -> has_own p (assign_true q o) = has_own p o.
Proof.
  intros Hpq. rewrite has_own_assign, Hpq.
  now destruct (String.eqb q "__proto__" && negb (has_own q o)).
Qed.

(** After [o[q] = true], [!!o[p]] is [true] for [p = q] and as before for
    any other name. *)
Lemma reads_truthy_assign (p q : string) (o : object) :
  reads_truthy p (assign_true q o) = String.eqb p q || reads_truthy p o.
Proof.
  unfold assign_true.
  destruct (String.eqb q "__proto__" && negb (has_own q o)) eqn:Hproto.
  - destruct (String.eqb p q) eqn:Hpq; [|reflexivity].
    apply String.eqb_eq in Hpq. subst q.
    apply andb_prop in Hproto. destruct Hproto as [Hname Hown].
    apply String.eqb_eq in Hname. subst p.
    apply negb_true_iff in Hown. unfold reads_truthy. rewrite Hown. reflexivity.
  - unfold reads_truthy. rewrite has_own_set, obj_get_set.
    now destruct (String.eqb p q).
Qed.

(** After [delete o[q]], [!!o[p]] is what the name inherits for [p = q] and
    as before for any other name. *)
Lemma reads_truthy_delete (p q : string) (o : object) :
  reads_truthy p (obj_delete q o)
  = if String.eqb p q then inherited p else reads_truthy p o.
Proof.
  unfold reads_truthy. rewrite has_own_delete, obj_get_delete.
  now destruct (String.eqb p q).
Qed.

Lemma is_true_spec (v : jsval) : is_true v = true -> v = JBool true.
Proof. destruct v as [| |[|]| | | |]; simpl; congruence. Qed.

Lemma processed_true (assignment : object) :
  forall acc, true_entries acc -> true_entries (processed assignment acc).
Proof.
  unfold processed. induction assignment as [|[k v] a IH]; intros acc Hacc; simpl.
  - exact Hacc.
  - apply IH. destruct (is_true v); [|exact Hacc].
    now apply true_entries_assign.
Qed.

Lemma edited_true (assignment : object) :
  forall acc, true_entries acc -> true_entries (edited assignment acc).
Proof.
  unfold edited. induction assignment as [|[k v] a IH]; intros acc Hacc; simpl.
  - exact Hacc.
  - apply IH. destruct (is_true v).
    + now apply true_entries_assign.
    + destruct (is_false v); [now apply true_entries_delete | exact Hacc].
Qed.

Lemma listed_true (props : list string) :
  forall acc, true_entries acc -> true_entries (listed props acc).
Proof.
  unfold listed. induction props as [|k props IH]; intros acc Hacc; simpl.
  - exact Hacc.
  - apply IH. now apply true_entries_assign.
Qed.

Lemma processed_absent (p : string) (assignment : object) :
  (forall v, In (p, v) assignment -> is_true v = false) ->
  forall acc, has_own p acc = false ->
              has_own p (processed assignment acc) = false.
Proof.
  unfold processed. induction assignment as [|[k v] a IH]; intros Hno acc Hacc; simpl.
  - exact Hacc.
  - apply IH; [intros w Hw; apply Hno; now right|].
    destruct (is_true v) eqn:Hv; [|exact Hacc].
    rewrite has_own_assign_other; [exact Hacc|].
    destruct (String.eqb p k) eqn:Hpk; [|reflexivity].
    apply String.eqb_eq in Hpk. subst k.
    rewrite (Hno v) in Hv; [discriminate | now left].
Qed.

Lemma edited_absent (p : string) (assignment : object) :
  (forall v, In (p, v) assignment -> is_true v = false) ->
  forall acc, has_own p acc = false ->
              has_own p (edited assignment acc) = false.
Proof.
  unfold edited. induction assignment as [|[k v] a IH]; intros Hno acc Hacc; simpl.
  - exact Hacc.
  - apply IH; [intros w Hw; apply Hno; now right|].
    destruct (is_true v) eqn:Hv.
    + rewrite has_own_assign_other; [exact Hacc|].
      destruct (String.eqb p k) eqn:Hpk; [|reflexivity].
      apply String.eqb_eq in Hpk. subst k.
      rewrite (Hno v) in Hv; [discriminate | now left].
    + destruct (is_false v); [|exact Hacc].
      rewrite has_own_delete, Hacc. apply andb_false_r.
Qed.

Lemma listed_absent (p : string) (props : list string) :
  ~ In p props ->
  forall acc, has_own p acc = false ->
              has_own p (listed props acc) = false.
Proof.
  unfold listed. induction props as [|k props IH]; intros Hno acc Hacc; simpl.
  - exact Hacc.
  - apply IH; [intros Hin; apply Hno; now right|].
    rewrite has_own_assign_other; [exact Hacc|].
    destruct (String.eqb p k) eqn:Hpk; [|reflexivity].
    apply String.eqb_eq in Hpk. subst k. elim Hno. now left.
Qed.

Lemma then_keeps {A B : Type} (c : method A) (k : A -> method B) :
  keeps_assignments c -> (forall a, keeps_assignments (k a)) ->
  keeps_assignments (then_ c k).
Proof.
  intros Hc Hk m. unfold then_. specialize (Hc m).
  destruct (c m) as [[a|e] m']; simpl in *; [|exact Hc].
  now rewrite Hk.
Qed.

Lemma forEach_keeps {A : Type} (l : list A) (f : A -> method unit) :
  (forall x, keeps_assignments (f x)) -> keeps_assignments (forEach l f).
Proof.
  intros Hf. induction l as [|x l IH]; simpl.
  - intros m. reflexivity.
  - apply then_keeps; [apply Hf | intros _; exact IH].
Qed.

Lemma set_nth_same {A : Type} (i : nat) (x : A) (l : list A) :
  nth_error l i = Some x -> set_nth i x l = l.
Proof.
  revert i. induction l as [|y l IH]; intros [|i]; simpl; try discriminate.
  - now intros [= ->].
  - intros H. now rewrite IH.
Qed.

Lemma getStates_set_nth (i : nat) (x : option State) (m : Model) :
  getStates (set_nth i x m) = set_nth i (hd None (getStates [x])) (getStates m).
Proof.
  unfold getStates. revert i. induction m as [|y m IH]; intros [|i]; simpl;
    try reflexivity.
  now rewrite IH.
Qed.

Lemma getStates_state_at (m : Model) (i : nat) (st : State) :
  state_at m i = Some st -> nth_error (getStates m) i = Some (Some (assignment st)).
Proof.
  unfold state_at, getStates. rewrite nth_error_map.
  destruct (nth_error m i) as [[st'|]|]; try discriminate.
  now intros [= ->].
Qed.

Lemma getStates_absent_state (m : Model) (i : nat) (o : object) :
  nth_error (getStates m) i = Some (Some o) ->
  exists st, state_at m i = Some st /\ assignment st = o.
Proof.
  unfold state_at, getStates. rewrite nth_error_map.
  destruct (nth_error m i) as [[st|]|]; try discriminate.
  intros [= <-]. eauto.
Qed.

Lemma store_successors_keeps (source : nat) (s : Map) :
  keeps_assignments (store_successors source s).
Proof.
  intros m. unfold store_successors.
  destruct (state_at m source) as [st|] eqn:Hst; simpl; [|reflexivity].
  rewrite getStates_set_nth. simpl. apply set_nth_same.
  now apply getStates_state_at.
Qed.

Lemma the_map_keeps (source : nat) : keeps_assignments (the_map source).
Proof.
  intros m. unfold the_map.
  destruct (state_at m source) as [[asg [s'|]]|]; reflexivity.
Qed.

Lemma ret_keeps {A : Type} (a : A) : keeps_assignments (ret a).
Proof. intros m. reflexivity. Qed.

Lemma throw_keeps {A : Type} (e : error) : keeps_assignments (@throw A e).
Proof. intros m. reflexivity. Qed.

Lemma addTransition_keeps (source target : nat) (agentList : list string) :
  keeps_assignments (addTransition source target agentList).
Proof.
  intros m. unfold addTransition.
  destruct (state_at m source); [|reflexivity].
  destruct (state_at m target); [|reflexivity].
  apply forEach_keeps. intros agent.
  apply then_keeps; [apply the_map_keeps|]. intros entries.
  destruct (map_get agent entries); apply store_successors_keeps.
Qed.

Lemma removeTransition_keeps (source target : nat) (agentList : list jsval) :
  keeps_assignments (removeTransition source target agentList).
Proof.
  intros m. unfold removeTransition.
  destruct (state_at m source); [|reflexivity].
  apply forEach_keeps. intros agent.
  apply then_keeps; [apply the_map_keeps|]. intros entries.
  destruct (Map_get agent entries); [|apply ret_keeps].
  destruct agent; try apply ret_keeps. apply store_successors_keeps.
Qed.

Lemma removeState_assignments (state : nat) (m : Model) :
  getStates (run (removeState state) m)
  = match state_at m state with
    | Some _ => set_nth state None (getStates m)
    | None => getStates m
    end.
Proof.
  unfold run, removeState.
  destruct (state_at m state); [|reflexivity].
  rewrite forEach_keeps.
  - now rewrite getStates_set_nth.
  - intros index now. destruct (state_at now index); [|reflexivity].
    apply removeTransition_keeps.
Qed.

Lemma addState_assignments (assignment : object) (m : Model) :
  getStates (run (addState assignment) m)
  = getStates m ++ [Some (processed assignment [])].
Proof.
  unfold run, addState, getStates. simpl. now rewrite map_app.
Qed.

Lemma editState_assignments (state : nat) (assignment : object) (m : Model) :
  getStates (run (editState state assignment) m)
  = match nth_error (getStates m) state with
    | Some (Some o) => set_nth state (Some (edited assignment o)) (getStates m)
    | _ => getStates m
    end.
Proof.
  unfold run, editState.
  destruct (state_at m state) as [[o s]|] eqn:Hst.
  - rewrite (getStates_state_at m state _ Hst). simpl.
    now rewrite getStates_set_nth.
  - simpl. destruct (nth_error (getStates m) state) as [[o|]|] eqn:Hn;
      try reflexivity.
    apply getStates_absent_state in Hn. destruct Hn as [st [Hs _]]. congruence.
Qed.

Lemma restore_state_assignment (token : string) (st : option State)
    (succs : option (list nat)) :
  restore_state token = Ret (st, succs) ->
  hd None (getStates [st]) = restored token.
Proof.
  unfold restore_state, restored.
  destruct token as [|c token]; [now intros [= <- <-]|].
  destruct (match_A_S (String c token)) as [[props ss]|]; [|discriminate].
  now intros [= <- <-].
Qed.

Lemma load_restores (tokens : list string) :
  forall now,
    exists k,
      getStates (snd (forEach tokens (fun state now =>
                        match restore_state state with
                        | Ret (st, _) => (Ret tt, now ++ [st])
                        | Throw e => (Throw e, now)
                        end) now))
      = getStates now ++ map restored (firstn k tokens).
Proof.
  induction tokens as [|token tokens IH]; intros now; simpl.
  - exists 0. simpl. now rewrite app_nil_r.
  - unfold then_ at 1.
    destruct (restore_state token) as [[st succs]|e] eqn:Hr.
    + destruct (IH (now ++ [st])) as [k Hk]. exists (S k).
      rewrite Hk. unfold getStates at 1. rewrite map_app. simpl.
      rewrite <- app_assoc. simpl. f_equal. f_equal.
      apply (restore_state_assignment token st succs Hr).
    + exists 0. simpl. now rewrite app_nil_r.
Qed.

Lemma loadFromModelString_assignments (modelString : string) (m : Model) :
  getStates (run (loadFromModelString modelString) m) = getStates m
  \/ exists k,
       getStates (run (loadFromModelString modelString) m)
       = map restored (firstn k (removelast (split ";" modelString))).
Proof.
  unfold run, loadFromModelString.
  destruct (regex_test modelString); simpl; [|now left].
  right. unfold then_.
  destruct (load_restores (removelast (split ";" modelString)) []) as [k Hk].
  exists k. simpl in Hk. rewrite <- Hk.
  destruct (forEach (removelast (split ";" modelString)) _ []) as [[[]|e] m'];
    [|reflexivity].
  simpl. apply forEach_keeps. intros state.
  destruct (restore_state state) as [[st [succs|]]|e]; try apply ret_keeps.
  apply forEach_keeps. intros target. apply throw_keeps.
Qed.

Lemma Forall_set_nth {A : Type} (P : A -> Prop) (i : nat) (x : A) (l : list A) :
  P x -> Forall P l -> Forall P (set_nth i x l).
Proof.
  intros Hx Hl. revert i. induction Hl as [|y l Hy Hl IH]; intros [|i]; simpl;
    constructor; auto.
Qed.

Lemma Forall_nth_error {A : Type} (P : A -> Prop) (l : list A) (i : nat) (x : A) :
  Forall P l -> nth_error l i = Some x -> P x.
Proof.
  intros Hl Hx. rewrite Forall_forall in Hl. apply Hl.
  eapply nth_error_In. exact Hx.
Qed.

Lemma stores_true_restored (token : string) : stores_true (restored token).
Proof.
  unfold restored. destruct token as [|c token]; [exact I|].
  destruct (match_A_S (String c token)) as [[props succs]|]; [|exact I].
  apply listed_true. constructor.
Qed.

(** Each method keeps the assignments free of entries other than [true]. *)
Lemma perform_only_true (c : call) (m : Model) :
  only_true m -> only_true (run (perform c) m).
Proof.
  unfold only_true. intros Hm. destruct c; simpl perform.
  - unfold run. now rewrite addTransition_keeps.
  - unfold run. now rewrite removeTransition_keeps.
  - rewrite addState_assignments. apply Forall_app. split; [exact Hm|].
    repeat constructor. apply processed_true. constructor.
  - rewrite editState_assignments.
    destruct (nth_error (getStates m) state) as [[o|]|] eqn:Hn; try exact Hm.
    apply Forall_set_nth; [|exact Hm].
    apply edited_true. exact (Forall_nth_error _ _ _ _ Hm Hn).
  - rewrite removeState_assignments.
    destruct (state_at m state); [|exact Hm].
    apply Forall_set_nth; [exact I | exact Hm].
  - destruct (loadFromModelString_assignments modelString m) as [-> | [k ->]];
      [exact Hm|].
    apply Forall_forall. intros x Hx. apply in_map_iff in Hx.
    destruct Hx as [token [<- _]]. apply stores_true_restored.
Qed.

Lemma nth_error_firstn_some {A : Type} (k i : nat) (l : list A) (x : A) :
  nth_error (firstn k l) i = Some x -> nth_error l i = Some x.
Proof.
  revert i l. induction k as [|k IH]; intros i l; simpl.
  - now destruct i.
  - destruct l as [|y l]; [now destruct i|].
    destruct i as [|i]; simpl; [auto | apply IH].
Qed.

(** A call that does not set [p] true at world [i] leaves it without an
    entry there. *)
Lemma perform_absent (c : call) (m : Model) (p : string) (i : nat) :
  ~ sets_true c m p i ->
  absent p i (getStates m) -> absent p i (getStates (run (perform c) m)).
Proof.
  intros Hnot Habs. destruct c; simpl perform.
  - unfold run. now rewrite addTransition_keeps.
  - unfold run. now rewrite removeTransition_keeps.
  - rewrite addState_assignments. intros o Ho.
    destruct (Nat.lt_ge_cases i (List.length (getStates m))) as [Hlt | Hge].
    + rewrite nth_error_app1 in Ho by exact Hlt. now apply Habs.
    + rewrite nth_error_app2 in Ho by exact Hge.
      destruct (i - List.length (getStates m)) as [|d] eqn:Hd;
        [|now destruct d].
      simpl in Ho. injection Ho as <-.
      apply processed_absent; [|reflexivity].
      intros v Hv. destruct (is_true v) eqn:Htrue; [|reflexivity].
      elim Hnot. simpl. split; [|eauto].
      unfold getStates in Hge, Hd. rewrite length_map in Hge, Hd. lia.
  - rewrite editState_assignments.
    destruct (nth_error (getStates m) state) as [[o|]|] eqn:Hn; try exact Habs.
    intros o' Ho'. rewrite set_nth_state_at in Ho'.
    destruct (state =? i) eqn:Hsi; [|now apply Habs].
    apply Nat.eqb_eq in Hsi. subst i.
    destruct (state <? List.length (getStates m)); [|discriminate].
    injection Ho' as <-.
    apply edited_absent; [|now apply Habs].
    intros v Hv. destruct (is_true v) eqn:Htrue; [|reflexivity].
    elim Hnot. simpl. eauto.
  - rewrite removeState_assignments.
    destruct (state_at m state); [|exact Habs].
    intros o Ho. rewrite set_nth_state_at in Ho.
    destruct (state =? i); [|now apply Habs].
    destruct (i <? List.length (getStates m)); discriminate.
  - destruct (loadFromModelString_assignments modelString m) as [-> | [k ->]];
      [exact Habs|].
    intros o Ho. rewrite nth_error_map in Ho.
    destruct (nth_error (firstn k (removelast (split ";" modelString))) i)
      as [token|] eqn:Htoken; [|discriminate].
    apply nth_error_firstn_some in Htoken. simpl in Ho.
    unfold restored in Ho. destruct token as [|ch token]; [discriminate|].
    destruct (match_A_S (String ch token)) as [[props succs]|] eqn:Hmatch;
      [|discriminate].
    injection Ho as <-. apply listed_absent; [|reflexivity].
    intros Hin. apply Hnot. simpl. eauto 6.
Qed.

Lemma after_only_true (calls : list call) :
  forall m, only_true m -> only_true (after calls m).
Proof.
  induction calls as [|c calls IH]; intros m Hm; simpl; [exact Hm|].
  apply IH. now apply perform_only_true.
Qed.

Lemma after_absent (p : string) (i : nat) (calls : list call) :
  forall m, never_set_true p i calls m ->
            absent p i (getStates m) -> absent p i (getStates (after calls m)).
Proof.
  induction calls as [|c calls IH]; intros m Hnever Habs; simpl; [exact Habs|].
  destruct Hnever as [Hnot Hnever].
  apply IH; [exact Hnever|]. now apply perform_absent.
Qed.

(** C8, on [one_world], the model after [addState({})]: the world stores
    no entry and no call has set [constructor] true there, yet
    [valuation('constructor', 0)] returns [true], and so does the formula
    [constructor]; [editState(0, {constructor: false})] does not change
    that.  The name is read off [Object.prototype]. *)
Theorem valuation_reads_inherited_names :
  getStates one_world = [Some []]
  /\ getModelString one_world = "AS;"
  /\ never_set_true "constructor" 0 [call_addState []] []
  /\ valuation one_world (JStr "constructor") 0 = Ret true
  /\ valuation (run (editState 0 [("constructor", JBool false)]) one_world)
       (JStr "constructor") 0
     = Ret true
  /\ forall global_model : Model,
       _truth global_model one_world 0 (Prop_ "constructor") = Ret (JBool true).
Proof.
  split; [reflexivity|]. split; [reflexivity|]. split.
  - split; [|exact I]. intros [_ [v [[] _]]].
  - split; [reflexivity|]. split; [reflexivity|]. intros G. reflexivity.
Qed.

(** X28: every method keeps each stored entry at [true], from the empty
    model on; and at a world [i] that exists after a sequence of calls none
    of which set [p] true at [i], the assignment holds no entry for [p], and
    [valuation(p, i)] returns [false] unless [p] is one of the names that
    every object inherits, for which it returns [true]. *)
Theorem valuations_store_true_only :
  (forall (c : call) (m : Model), only_true m -> only_true (run (perform c) m))
  /\ (forall calls : list call, only_true (after calls []))
  /\ (forall (calls : list call) (p : string) (i : nat) (st : State),
        never_set_true p i calls [] ->
        state_at (after calls []) i = Some st ->
        has_own p (assignment st) = false
        /\ valuation (after calls []) (JStr p) i = Ret (inherited p)).
Proof.
  split; [exact perform_only_true|]. split.
  - intros calls. apply after_only_true. constructor.
  - intros calls p i st Hnever Hst.
    assert (has_own p (assignment st) = false) as Hown.
    { apply (after_absent p i calls [] Hnever).
      - intros o Ho. now destruct i.
      - now apply getStates_state_at. }
    split; [exact Hown|].
    unfold valuation. rewrite Hst. simpl toString.
    unfold reads_truthy. now rewrite Hown.
Qed.

Lemma valuations_store_true_only_witness :
  has_own "p" [("q", JBool true); ("r", JBool true)] = false
  /\ valuation
       (after [call_addState [("q", JBool true); ("p", JBool false)];
               call_addTransition 0 0 ["a"];
               call_editState 0 [("r", JBool true)]] [])
       (JStr "p") 0 = Ret false.
Proof.
  apply (proj2 (proj2 valuations_store_true_only)
           [call_addState [("q", JBool true); ("p", JBool false)];
            call_addTransition 0 0 ["a"];
            call_editState 0 [("r", JBool true)]]
           "p" 0
           (mkState [("q", JBool true); ("r", JBool true)]
                    (SuccMap [("a", [0])]))).
  - simpl. repeat split.
    + intros [_ [v [[H | [H | []]] Hv]]]; inversion H; subst; discriminate.
    + tauto.
    + intros [_ [v [[H | []] Hv]]]. inversion H.
  - reflexivity.
Defined.

(** ** More on the reachability closure *)

(** X1: the loop of [getAllSuccessorsOf] comes to an end on every model,
    for every agent and from every pair of lists [V] and [C]: the fuel the
    model gives it is never used up. *)
Theorem closure_loop_total :
  forall (model : Model) (agent : jsval) (V C : list nat),
    exists r : result (list nat),
      closure_loop model (S (pending model agent V C)) agent V C = Some r.
Proof.
  intros model agent V C. apply closure_loop_terminates. lia.
Qed.

Lemma closure_loop_closed (model : Model) (agent : string) (i : nat) (fuel : nat) :
  ~ reachable model agent i 0 ->
  forall V C W,
    (forall x, In x C -> reachable model agent i x) ->
    (forall v x, In v V -> edge model agent v x -> In x V \/ In x C) ->
    closure_loop model fuel (JStr agent) V C = Some (Ret W) ->
    (forall x, In x V \/ In x C -> In x W)
    /\ (forall v x, In v W -> edge model agent v x -> In x W).
Proof.
  intros Hzero. induction fuel as [|fuel IH]; intros V C W HC Hclosed; simpl;
    [discriminate|].
  destruct C as [|s rest].
  { intros [= <-]. split.
    - intros x [Hx | []]. exact Hx.
    - intros v x Hv Hvx. destruct (Hclosed v x Hv Hvx) as [Hx | []]. exact Hx. }
  destruct (s =? 0) eqn:Hs0.
  { apply Nat.eqb_eq in Hs0. subst s. elim Hzero. apply HC. now left. }
  assert (forall x, In x rest -> reachable model agent i x) as Hrest
    by (intros x Hx; apply HC; now right).
  destruct (existsb (Nat.eqb s) V) eqn:Hvis.
  { apply existsb_eqb_In in Hvis. intros Hloop.
    destruct (IH V rest W Hrest) as [Hin Hcl]; [|exact Hloop|].
    - intros v x Hv Hvx. destruct (Hclosed v x Hv Hvx) as [Hx | [<- | Hx]]; auto.
    - split; [|exact Hcl].
      intros x [Hx | [<- | Hx]]; apply Hin; auto. }
  destruct (getSuccessorsOf model s (JStr agent)) as [[L|]|e] eqn:Hsucc;
    [| |discriminate]; intros Hloop.
  - destruct (IH (V ++ [s]) (rest ++ L) W) as [Hin Hcl]; [| |exact Hloop|].
    + intros x Hx. apply in_app_iff in Hx. destruct Hx as [Hx | Hx]; [auto|].
      apply (reachable_then_edge model agent i s x).
      * apply HC. now left.
      * exists L. now split.
    + intros v x Hv Hvx. rewrite !in_app_iff. simpl.
      apply in_app_iff in Hv. destruct Hv as [Hv | [<- | []]].
      * destruct (Hclosed v x Hv Hvx) as [Hx | [<- | Hx]]; auto.
      * destruct Hvx as [L' [HL' Hx]]. rewrite Hsucc in HL'.
        injection HL' as <-. auto.
    + split; [|exact Hcl].
      intros x Hx. apply Hin. rewrite !in_app_iff. simpl.
      destruct Hx as [Hx | [<- | Hx]]; auto.
  - destruct (IH (V ++ [s]) rest W Hrest) as [Hin Hcl]; [|exact Hloop|].
    + intros v x Hv Hvx. rewrite in_app_iff. simpl.
      apply in_app_iff in Hv. destruct Hv as [Hv | [<- | []]].
      * destruct (Hclosed v x Hv Hvx) as [Hx | [<- | Hx]]; auto.
      * destruct Hvx as [L' [HL' Hx]]. rewrite Hsucc in HL'. discriminate.
    + split; [|exact Hcl].
      intros x Hx. apply Hin. rewrite in_app_iff. simpl.
      destruct Hx as [Hx | [<- | Hx]]; auto.
Qed.

Lemma closed_reachable (model : Model) (agent : string) (W : list nat) :
  (forall v x, In v W -> edge model agent v x -> In x W) ->
  forall j k, reachable model agent j k -> In j W -> In k W.
Proof.
  intros Hcl j k Hjk. induction Hjk as [j k H | j l k H Hlk IH]; intros Hj.
  - now apply (Hcl j k).
  - apply IH. now apply (Hcl j l).
Qed.

(** X2: when world 0 cannot be reached from [state], what
    [getAllSuccessorsOf] returns is exactly the set of worlds reachable from
    [state] in one or more steps of the agent's relation, each listed
    once. *)
Theorem getAllSuccessorsOf_exact :
  forall (model : Model) (agent : string) (state : nat) (W : list nat),
    ~ reachable model agent state 0 ->
    getAllSuccessorsOf model state (JStr agent) = Ret W ->
    NoDup W /\ forall x, In x W <-> reachable model agent state x.
Proof.
  intros model agent i W Hzero HW.
  destruct (getAllSuccessorsOf_visits model agent i W HW) as [Hdup Hsound].
  split; [exact Hdup|]. intros x. split; [apply Hsound|].
  destruct (getSuccessorsOf model i (JStr agent)) as [[C|]|e] eqn:HC.
  - pose proof (getAllSuccessorsOf_loop model (JStr agent) i C HC) as Hloop.
    rewrite HW in Hloop.
    destruct (closure_loop_closed model agent i
                (S (pending model (JStr agent) [] C)) Hzero [] C W)
      as [Hin Hcl]; [| |exact Hloop|].
    + intros y Hy. apply reach_one. exists C. now split.
    + intros v y [].
    + intros Hx. destruct Hx as [i j [L [HL Hj]] | i j k [L [HL Hj]] Hjk].
      * rewrite HC in HL. injection HL as <-. apply Hin. now right.
      * rewrite HC in HL. injection HL as <-.
        apply (closed_reachable model agent W Hcl j k Hjk). apply Hin. now right.
  - intros Hx. exfalso.
    destruct Hx as [i j [L [HL Hj]] | i j k [L [HL Hj]] Hjk];
      rewrite HC in HL; discriminate.
  - unfold getAllSuccessorsOf in HW. rewrite HC in HW. discriminate.
Qed.

Lemma getAllSuccessorsOf_exact_witness :
  NoDup [1; 2]
  /\ forall x, In x [1; 2] <-> reachable two_agents "a" 0 x.
Proof.
  apply (getAllSuccessorsOf_exact two_agents "a" 0 [1; 2]); [|reflexivity].
  intros H.
  assert (forall j k, reachable two_agents "a" j k -> k <> 0) as Hno.
  { intros j k Hjk.
    induction Hjk as [j k [L [HL Hk]] | j l k _ _ IH]; [|exact IH].
    destruct j as [|[|[|j]]]; vm_compute in HL.
    - injection HL as <-. destruct Hk as [<- | []]. discriminate.
    - injection HL as <-. destruct Hk as [<- | []]. discriminate.
    - discriminate.
    - destruct j; discriminate. }
  now apply (Hno 0 0 H).
Defined.

(** ** Transitions *)

Lemma map_get_set (a b : string) (v : list nat) (m : Map) :
  map_get a (map_set b v m) = if String.eqb a b then Some v else map_get a m.
Proof.
  induction m as [|[k w] m IH]; simpl.
  - reflexivity.
  - destruct (String.eqb b k) eqn:Hbk; simpl.
    + apply String.eqb_eq in Hbk. subst k.
      destruct (String.eqb a b); reflexivity.
    + rewrite IH. destruct (String.eqb a k) eqn:Hak; [|reflexivity].
      apply String.eqb_eq in Hak. subst k.
      rewrite String.eqb_sym in Hbk. now rewrite Hbk.
Qed.

Lemma set_nth_twice {A : Type} (i : nat) (x y : A) (l : list A) :
  set_nth i x (set_nth i y l) = set_nth i x l.
Proof.
  revert i. induction l as [|z l IH]; intros [|i]; simpl; try reflexivity.
  now rewrite IH.
Qed.

Lemma state_at_set_nth (i j : nat) (x : option State) (m : Model) :
  state_at (set_nth i x m) j
  = if Nat.eqb i j then (if j <? List.length m then x else None)
    else state_at m j.
Proof.
  unfold state_at. rewrite set_nth_state_at.
  destruct (i =? j); [|reflexivity].
  destruct (j <? List.length m); [|reflexivity]. now destruct x.
Qed.

Lemma state_at_in_range (m : Model) (i : nat) (st : State) :
  state_at m i = Some st -> (i <? List.length m) = true.
Proof.
  unfold state_at. intros H. apply Nat.ltb_lt. apply nth_error_Some.
  destruct (nth_error m i); discriminate.
Qed.

Lemma state_at_nth_error (m : Model) (i : nat) (st : State) :
  state_at m i = Some st -> nth_error m i = Some (Some st).
Proof.
  unfold state_at. destruct (nth_error m i) as [[st'|]|]; congruence.
Qed.

(** The loop of [addTransition], on a state that holds a Map. *)
Lemma addTransition_loop (source target : nat) (agentList : list string) :
  forall (m : Model) (asg : object) (s : Map),
    state_at m source = Some (mkState asg (SuccMap s)) ->
    forEach agentList (fun agent =>
      s <~ the_map source ;;
      match map_get agent s with
      | Some L => store_successors source (map_set agent (L ++ [target]) s)
      | None => store_successors source (map_set agent [target] s)
      end) m
    = (Ret tt,
       set_nth source
         (Some (mkState asg (SuccMap (add_all target agentList s)))) m).
Proof.
  induction agentList as [|agent agentList IH]; intros m asg s Hst; simpl.
  - unfold ret. f_equal. symmetry. apply set_nth_same.
    now apply state_at_nth_error.
  - unfold then_ at 1. unfold then_ at 1. unfold the_map at 1. rewrite Hst.
    pose proof (state_at_in_range m source _ Hst) as Hrange.
    assert (forall s', store_successors source s' m
                       = (Ret tt, set_nth source (Some (mkState asg (SuccMap s'))) m))
      as Hstore.
    { intros s'. unfold store_successors. now rewrite Hst. }
    assert (forall s', state_at (set_nth source (Some (mkState asg (SuccMap s'))) m)
                         source = Some (mkState asg (SuccMap s'))) as Hat.
    { intros s'. rewrite state_at_set_nth, Nat.eqb_refl. now rewrite Hrange. }
    destruct (map_get agent s) as [L|]; rewrite Hstore;
      rewrite (IH _ asg _ (Hat _)); now rewrite set_nth_twice.
Qed.

Lemma addTransition_result (source target : nat) (agentList : list string)
    (m : Model) (asg : object) (s : Map) (t : State) :
  state_at m source = Some (mkState asg (SuccMap s)) ->
  state_at m target = Some t ->
  addTransition source target agentList m
  = (Ret tt,
     set_nth source
       (Some (mkState asg (SuccMap (add_all target agentList s)))) m).
Proof.
  intros Hs Ht. unfold addTransition. rewrite Hs, Ht.
  now apply addTransition_loop.
Qed.

Lemma add_all_get (target : nat) (b : string) (agentList : list string) :
  forall s,
    map_get b (add_all target agentList s)
    = match count_occ string_dec agentList b with
      | 0 => map_get b s
      | S n => Some (entry_or_empty b s ++ repeat target (S n))
      end.
Proof.
  unfold add_all.
  induction agentList as [|agent agentList IH]; intros s; [reflexivity|].
  cbn [fold_left count_occ]. rewrite IH. clear IH.
  assert (forall L, map_get b (map_set agent L s)
                    = if string_dec agent b then Some L else map_get b s) as Hget.
  { intros L. rewrite map_get_set.
    destruct (string_dec agent b) as [-> | Hne].
    - now rewrite String.eqb_refl.
    - destruct (String.eqb b agent) eqn:E; [|reflexivity].
      apply String.eqb_eq in E. congruence. }
  assert (forall L, entry_or_empty b (map_set agent L s)
                    = if string_dec agent b then L else entry_or_empty b s) as Hent.
  { intros L. unfold entry_or_empty. rewrite Hget.
    now destruct (string_dec agent b). }
  destruct (map_get agent s) as [L|] eqn:Hagent;
    rewrite ?Hget, ?Hent;
    destruct (string_dec agent b) as [-> | Hne];
    destruct (count_occ string_dec agentList b) as [|n];
    try reflexivity;
    unfold entry_or_empty; rewrite Hagent; simpl;
    try rewrite <- app_assoc; reflexivity.
Qed.

(** X3: on a world whose relation is a Map, with an existing target,
    [addTransition(source, target, agentList)] appends [target] to the
    array of each listed agent, once per occurrence of the agent in
    [agentList] and after what the array held (an agent without an entry
    gets one); the arrays of the other agents stay as they are. *)
Theorem addTransition_appends :
  forall (m : Model) (source target : nat) (agentList : list string)
         (st t : State) (s : Map) (b : string),
    state_at m source = Some st ->
    successors st = SuccMap s ->
    state_at m target = Some t ->
    getSuccessorsOf (run (addTransition source target agentList) m) source (JStr b)
    = Ret match count_occ string_dec agentList b with
          | 0 => map_get b s
          | S n => Some (entry_or_empty b s ++ repeat target (S n))
          end.
Proof.
  intros m source target agentList [asg succ] t s b Hst Hs Ht.
  simpl in Hs. subst succ. unfold run.
  rewrite (addTransition_result source target agentList m asg s t Hst Ht).
  unfold getSuccessorsOf. cbn [snd].
  rewrite state_at_set_nth, Nat.eqb_refl, (state_at_in_range m source _ Hst).
  simpl. now rewrite add_all_get.
Qed.

Lemma addTransition_appends_witness :
  getSuccessorsOf (run (addTransition 0 2 ["a"; "c"; "a"]) two_agents) 0 (JStr "a")
  = Ret (Some ([1] ++ [2; 2])).
Proof.
  apply (addTransition_appends two_agents 0 2 ["a"; "c"; "a"]
           (mkState [] (SuccMap [("a", [1]); ("b", [2])]))
           (mkState [] (SuccMap []))
           [("a", [1]); ("b", [2])] "a");
    reflexivity.
Defined.

(** X4: [addTransition] touches one world only: every other world keeps its
    state, no valuation changes, and when the source or the target is absent
    the call changes nothing and does not throw. *)
Theorem addTransition_frame :
  forall (m : Model) (source target : nat) (agentList : list string),
    (forall j, j <> source ->
               state_at (run (addTransition source target agentList) m) j
               = state_at m j)
    /\ getStates (run (addTransition source target agentList) m) = getStates m
    /\ (state_at m source = None \/ state_at m target = None ->
        addTransition source target agentList m = (Ret tt, m)).
Proof.
  intros m source target agentList. split; [|split].
  - intros j Hj. unfold run, addTransition.
    destruct (state_at m source) as [st|] eqn:Hs; [|reflexivity].
    destruct (state_at m target) as [t|] eqn:Ht; [|reflexivity].
    assert (forall l now, (forall j, j <> source -> state_at now j = state_at m j) ->
              forall j, j <> source ->
              state_at (snd (forEach l (fun agent =>
                 s <~ the_map source ;;
                 match map_get agent s with
                 | Some L => store_successors source (map_set agent (L ++ [target]) s)
                 | None => store_successors source (map_set agent [target] s)
                 end) now)) j = state_at m j) as Hloop.
    { induction l as [|agent l IH]; intros now Hnow k Hk; simpl; [now apply Hnow|].
      unfold then_ at 1. unfold then_ at 1. unfold the_map at 1.
      destruct (state_at now source) as [[asg [s|]]|] eqn:Hnows; simpl;
        try now apply Hnow.
      assert (forall s', exists now',
                store_successors source s' now = (Ret tt, now')
                /\ forall j, j <> source -> state_at now' j = state_at m j) as Hst.
      { intros s'. unfold store_successors. rewrite Hnows.
        eexists. split; [reflexivity|].
        intros i Hi. rewrite state_at_set_nth.
        destruct (source =? i) eqn:E; [|now apply Hnow].
        apply Nat.eqb_eq in E. congruence. }
      destruct (map_get agent s) as [L|].
      - destruct (Hst (map_set agent (L ++ [target]) s)) as [now' [-> Hnow']].
        now apply IH.
      - destruct (Hst (map_set agent [target] s)) as [now' [-> Hnow']].
        now apply IH. }
    now apply Hloop.
  - apply addTransition_keeps.
  - intros Habs. unfold addTransition.
    destruct Habs as [-> | Ht]; [reflexivity|].
    rewrite Ht. now destruct (state_at m source).
Qed.

Lemma count_occ_remove_first (target x : nat) (L : list nat) :
  count_occ Nat.eq_dec (remove_first target L) x
  = if Nat.eq_dec target x then pred (count_occ Nat.eq_dec L x)
    else count_occ Nat.eq_dec L x.
Proof.
  induction L as [|y L IH]; simpl.
  - now destruct (Nat.eq_dec target x).
  - destruct (y =? target) eqn:Hy.
    + apply Nat.eqb_eq in Hy. subst y.
      destruct (Nat.eq_dec target x); reflexivity.
    + apply Nat.eqb_neq in Hy. simpl. rewrite IH.
      destruct (Nat.eq_dec y x) as [-> | Hyx];
        destruct (Nat.eq_dec target x) as [<- | Htx]; try reflexivity.
      congruence.
Qed.

Lemma remove_first_appended (target : nat) (L : list nat) :
  ~ In target L -> remove_first target (L ++ [target]) = L.
Proof.
  induction L as [|y L IH]; simpl; intros Hnot.
  - now rewrite Nat.eqb_refl.
  - destruct (y =? target) eqn:Hy.
    + apply Nat.eqb_eq in Hy. elim Hnot. now left.
    + f_equal. apply IH. intros Hin. apply Hnot. now right.
Qed.

Lemma removeTransition_one (source target : nat) (a : string) (m : Model)
    (asg : object) (s : Map) :
  state_at m source = Some (mkState asg (SuccMap s)) ->
  removeTransition source target [JStr a] m
  = (Ret tt,
     match map_get a s with
     | Some L =>
         set_nth source
           (Some (mkState asg (SuccMap (map_set a (remove_first target L) s)))) m
     | None => m
     end).
Proof.
  intros Hst. unfold removeTransition. rewrite Hst. simpl.
  unfold then_ at 1. unfold then_ at 1. unfold the_map. rewrite Hst. simpl.
  destruct (map_get a s) as [L|]; [|reflexivity].
  unfold store_successors. now rewrite Hst.
Qed.

(** X5: on a world whose relation is a Map, [removeTransition(source,
    target, [a])] takes exactly one occurrence of [target] out of the array
    of agent [a] (the other worlds of the array, and further occurrences of
    [target], stay); the entry itself stays, also when its array becomes
    empty; an agent without an entry still has none. *)
Theorem removeTransition_removes_one :
  forall (m : Model) (source target : nat) (a : string) (st : State) (s : Map),
    state_at m source = Some st ->
    successors st = SuccMap s ->
    match map_get a s with
    | Some L =>
        exists L',
          getSuccessorsOf (run (removeTransition source target [JStr a]) m)
            source (JStr a) = Ret (Some L')
          /\ count_occ Nat.eq_dec L' target = pred (count_occ Nat.eq_dec L target)
          /\ forall x, x <> target ->
                       count_occ Nat.eq_dec L' x = count_occ Nat.eq_dec L x
    | None =>
        getSuccessorsOf (run (removeTransition source target [JStr a]) m)
          source (JStr a) = Ret None
    end.
Proof.
  intros m source target a [asg succ] s Hst Hs. simpl in Hs. subst succ.
  unfold run. rewrite (removeTransition_one source target a m asg s Hst).
  cbn [snd]. destruct (map_get a s) as [L|] eqn:Ha.
  - exists (remove_first target L). split; [|split].
    + unfold getSuccessorsOf.
      rewrite state_at_set_nth, Nat.eqb_refl, (state_at_in_range m source _ Hst).
      simpl. now rewrite map_get_set, String.eqb_refl.
    + rewrite count_occ_remove_first. now destruct (Nat.eq_dec target target).
    + intros x Hx. rewrite count_occ_remove_first.
      destruct (Nat.eq_dec target x); congruence.
  - unfold getSuccessorsOf. rewrite Hst. simpl. now rewrite Ha.
Qed.

Lemma removeTransition_removes_one_witness :
  exists L',
    getSuccessorsOf (run (removeTransition 0 1 [JStr "a"]) two_agents) 0 (JStr "a")
    = Ret (Some L')
    /\ count_occ Nat.eq_dec L' 1 = pred (count_occ Nat.eq_dec [1] 1)
    /\ forall x, x <> 1 -> count_occ Nat.eq_dec L' x = count_occ Nat.eq_dec [1] x.
Proof.
  exact (removeTransition_removes_one two_agents 0 1 "a"
           (mkState [] (SuccMap [("a", [1]); ("b", [2])]))
           [("a", [1]); ("b", [2])] eq_refl eq_refl).
Defined.

(** X6: adding a transition for agent [a] and removing it again does not
    bring back a missing entry: an agent that had no entry at the source
    ends with an entry holding the empty array, and an agent that had the
    array [L] ends with the same worlds as often as in [L] (with [L] itself
    when [target] was not in it). *)
Theorem add_then_remove_transition :
  forall (m : Model) (source target : nat) (a : string) (st t : State) (s : Map),
    state_at m source = Some st ->
    successors st = SuccMap s ->
    state_at m target = Some t ->
    exists L',
      getSuccessorsOf
        (run (removeTransition source target [JStr a])
           (run (addTransition source target [a]) m))
        source (JStr a) = Ret (Some L')
      /\ (forall x, count_occ Nat.eq_dec L' x
                    = count_occ Nat.eq_dec (entry_or_empty a s) x)
      /\ (~ In target (entry_or_empty a s) -> L' = entry_or_empty a s).
Proof.
  intros m source target a [asg succ] t s Hst Hs Ht. simpl in Hs. subst succ.
  unfold run at 2.
  rewrite (addTransition_result source target [a] m asg s t Hst Ht). cbn [snd].
  set (s1 := add_all target [a] s).
  set (m1 := set_nth source (Some (mkState asg (SuccMap s1))) m).
  assert (state_at m1 source = Some (mkState asg (SuccMap s1))) as Hst1.
  { unfold m1. rewrite state_at_set_nth, Nat.eqb_refl.
    now rewrite (state_at_in_range m source _ Hst). }
  assert (map_get a s1 = Some (entry_or_empty a s ++ [target])) as Ha1.
  { unfold s1. rewrite add_all_get. simpl.
    destruct (string_dec a a); [reflexivity | congruence]. }
  unfold run. rewrite (removeTransition_one source target a m1 asg s1 Hst1).
  rewrite Ha1. cbn [snd].
  exists (remove_first target (entry_or_empty a s ++ [target])).
  split; [|split].
  - unfold getSuccessorsOf.
    rewrite state_at_set_nth, Nat.eqb_refl, (state_at_in_range m1 source _ Hst1).
    simpl. now rewrite map_get_set, String.eqb_refl.
  - intros x. rewrite count_occ_remove_first, count_occ_app. simpl.
    destruct (Nat.eq_dec target x); lia.
  - apply remove_first_appended.
Qed.

Lemma add_then_remove_transition_witness :
  exists L',
    getSuccessorsOf
      (run (removeTransition 0 1 [JStr "c"]) (run (addTransition 0 1 ["c"]) two_agents))
      0 (JStr "c") = Ret (Some L')
    /\ (forall x, count_occ Nat.eq_dec L' x = count_occ Nat.eq_dec [] x)
    /\ (~ In 1 [] -> L' = []).
Proof.
  exact (add_then_remove_transition two_agents 0 1 "c"
           (mkState [] (SuccMap [("a", [1]); ("b", [2])]))
           (mkState [] (SuccMap [("a", [2])]))
           [("a", [1]); ("b", [2])] eq_refl eq_refl eq_refl).
Defined.

(** ** Worlds and valuations *)

Lemma length_set_nth {A : Type} (i : nat) (x : A) (l : list A) :
  List.length (set_nth i x l) = List.length l.
Proof.
  revert i. induction l as [|y l IH]; intros [|i]; simpl; try reflexivity.
  now rewrite IH.
Qed.

Lemma length_getStates (m : Model) : List.length (getStates m) = List.length m.
Proof. unfold getStates. apply length_map. Qed.

Lemma state_at_getStates_None (m : Model) (i : nat) :
  state_at m i = None <-> forall o, nth_error (getStates m) i <> Some (Some o).
Proof.
  unfold state_at, getStates. rewrite nth_error_map.
  destruct (nth_error m i) as [[st|]|]; simpl; split; try congruence.
  intros H. now elim (H (assignment st)).
Qed.

(** X7: world indices are stable.  A call of [addTransition],
    [removeTransition], [addState], [editState] or [removeState] never
    shortens or reorders the array of states: only [addState] lengthens it,
    by one, and below the old length a world is absent afterwards exactly
    when it was absent before or is the world the call removed. *)
Theorem world_indices_are_stable :
  forall (c : call) (m : Model),
    (forall modelString, c <> call_loadFromModelString modelString) ->
    List.length (run (perform c) m)
    = List.length m + match c with call_addState _ => 1 | _ => 0 end
    /\ forall i, i < List.length m ->
         (state_at (run (perform c) m) i = None
          <-> state_at m i = None \/ c = call_removeState i).
Proof.
  intros c m Hload.
  assert ((forall i, c <> call_removeState i) ->
            getStates (run (perform c) m) = getStates m ->
            List.length (run (perform c) m) = List.length m + 0
            /\ forall i, i < List.length m ->
                 (state_at (run (perform c) m) i = None
                  <-> state_at m i = None \/ c = call_removeState i)) as Hsame.
  { intros Hnot Heq. split.
    - rewrite <- (length_getStates (run (perform c) m)), Heq, length_getStates. lia.
    - intros i _. rewrite !state_at_getStates_None, Heq.
      split; [auto|]. intros [H | H]; [exact H|]. now elim (Hnot i). }
  destruct c as [s t l | s t l | a | s a | s | str]; cbn [perform] in *.
  - apply Hsame; [discriminate|]. apply addTransition_keeps.
  - apply Hsame; [discriminate|]. apply removeTransition_keeps.
  - pose proof (addState_assignments a m) as Hadd. split.
    + rewrite <- (length_getStates (run _ m)), Hadd, length_app, length_getStates.
      reflexivity.
    + intros i Hi. rewrite !state_at_getStates_None, Hadd.
      rewrite nth_error_app1 by (now rewrite length_getStates).
      split; [auto|]. intros [H | H]; [exact H | discriminate].
  - pose proof (editState_assignments s a m) as Hedit. split.
    + rewrite <- (length_getStates (run _ m)), Hedit.
      destruct (nth_error (getStates m) s) as [[o|]|];
        rewrite ?length_set_nth, length_getStates; lia.
    + intros i Hi. rewrite !state_at_getStates_None, Hedit.
      destruct (nth_error (getStates m) s) as [[o|]|] eqn:Hs;
        try (split; [auto|]; intros [H | H]; [exact H | discriminate]).
      split.
      * intros H. left. intros o' Ho'.
        apply (H (if s =? i then edited a o else o')).
        rewrite set_nth_state_at. destruct (s =? i); [|exact Ho'].
        rewrite length_getStates. apply Nat.ltb_lt in Hi. now rewrite Hi.
      * intros [H | H]; [|discriminate]. intros o' Ho'.
        rewrite set_nth_state_at in Ho'. destruct (s =? i) eqn:E.
        -- apply Nat.eqb_eq in E. subst i. now apply (H o).
        -- now apply (H o').
  - pose proof (removeState_assignments s m) as Hrem. split.
    + rewrite <- (length_getStates (run _ m)), Hrem.
      destruct (state_at m s); rewrite ?length_set_nth, length_getStates; lia.
    + intros i Hi. rewrite (state_at_getStates_None (run _ m)), Hrem.
      destruct (state_at m s) as [st|] eqn:Hs.
      * split.
        -- intros H. destruct (Nat.eq_dec s i) as [-> | Hne]; [now right|].
           left. apply state_at_getStates_None. intros o Ho. apply (H o).
           rewrite set_nth_state_at.
           apply Nat.eqb_neq in Hne. now rewrite Hne.
        -- intros H o Ho. rewrite set_nth_state_at in Ho.
           destruct (s =? i) eqn:E.
           ++ destruct (i <? List.length (getStates m)); discriminate.
           ++ destruct H as [H | H].
              ** exact (proj1 (state_at_getStates_None m i) H o Ho).
              ** injection H as ->. now rewrite Nat.eqb_refl in E.
      * rewrite <- state_at_getStates_None. split; [auto|].
        intros [H | H]; [exact H|]. injection H as ->. exact Hs.
  - now elim (Hload str).
Qed.

Lemma world_indices_are_stable_witness :
  List.length (run (perform (call_removeState 1)) two_agents)
  = List.length two_agents + 0
  /\ forall i, i < List.length two_agents ->
       (state_at (run (perform (call_removeState 1)) two_agents) i = None
        <-> state_at two_agents i = None \/ call_removeState 1 = call_removeState i).
Proof.
  apply (world_indices_are_stable (call_removeState 1) two_agents).
  intros modelString. discriminate.
Defined.

Lemma editState_state (state : nat) (assignment : object) (m : Model)
    (asg : object) (s : successors_t) :
  state_at m state = Some (mkState asg s) ->
  state_at (run (editState state assignment) m) state
  = Some (mkState (edited assignment asg) s).
Proof.
  intros Hst. unfold run, editState. rewrite Hst. cbn [snd].
  rewrite state_at_set_nth, Nat.eqb_refl.
  now rewrite (state_at_in_range m state _ Hst).
Qed.

(** X8: [editState(state, {p: v})] on an existing world makes
    [valuation(p, state)] [true] when [v] is [true]; when [v] is [false] it
    deletes the entry of [p], after which [valuation(p, state)] is [false],
    except for a name that every object inherits, for which it is [true];
    any other value of [v] (a number, a string, [null]) leaves the valuation
    as it was; and the valuation of every other proposition at that world
    stays as it was. *)
Theorem editState_then_valuation :
  forall (m : Model) (state : nat) (st : State) (p q : string) (v : jsval),
    state_at m state = Some st ->
    valuation (run (editState state [(p, v)]) m) (JStr q) state
    = (if String.eqb q p
       then match v with
            | JBool true => Ret true
            | JBool false => Ret (inherited q)
            | _ => valuation m (JStr q) state
            end
       else valuation m (JStr q) state)
    /\ (v = JBool false ->
        forall o,
          nth_error (getStates (run (editState state [(p, v)]) m)) state
          = Some (Some o) ->
          has_own p o = false).
Proof.
  intros m state [asg s] p q v Hst. split.
  - unfold valuation.
    rewrite (editState_state state [(p, v)] m asg s Hst), Hst. simpl.
    destruct v as [| |[|]| | | |]; simpl;
      rewrite ?reads_truthy_assign, ?reads_truthy_delete;
      destruct (String.eqb q p); reflexivity.
  - intros -> o Ho.
    rewrite (getStates_state_at _ state _
               (editState_state state [(p, JBool false)] m asg s Hst)) in Ho.
    injection Ho as <-. simpl.
    now rewrite has_own_delete, String.eqb_refl.
Qed.

Lemma editState_then_valuation_witness :
  valuation (run (editState 1 [("p", JBool false)]) three_worlds) (JStr "p") 1
  = Ret false
  /\ valuation (run (editState 1 [("toString", JBool false)]) three_worlds)
       (JStr "toString") 1
     = Ret true.
Proof.
  split.
  - exact (proj1 (editState_then_valuation three_worlds 1
                    (mkState [("p", JBool true)] (SuccMap [])) "p" "p" (JBool false)
                    eq_refl)).
  - exact (proj1 (editState_then_valuation three_worlds 1
                    (mkState [("p", JBool true)] (SuccMap []))
                    "toString" "toString" (JBool false) eq_refl)).
Defined.

Lemma processed_reads (p : string) (assignment : object) :
  forall acc,
    reads_truthy p (processed assignment acc)
    = reads_truthy p acc
      || existsb (fun '(k, v) => String.eqb p k && is_true v) assignment.
Proof.
  unfold processed.
  induction assignment as [|[k v] a IH]; intros acc; simpl.
  - now rewrite orb_false_r.
  - rewrite IH. rewrite orb_assoc. f_equal.
    destruct (is_true v).
    + rewrite reads_truthy_assign, andb_true_r. apply orb_comm.
    + now rewrite andb_false_r, orb_false_r.
Qed.

(** X9: [addState(assignment)] appends a world at the index that was the
    number of states.  A proposition is true there when the assignment gives
    it the value [true] itself (entries with any other value, truthy ones
    included, are left out), and also when its name is one that every object
    inherits; it is false otherwise. *)
Theorem addState_then_valuation :
  forall (m : Model) (assignment : object) (p : string),
    valuation (run (addState assignment) m) (JStr p) (List.length m)
    = Ret (existsb (fun '(k, v) => String.eqb p k && is_true v) assignment
           || inherited p).
Proof.
  intros m a p. unfold valuation, run, addState, state_at. cbn [snd].
  rewrite nth_error_app2 by lia. rewrite Nat.sub_diag. simpl.
  f_equal. rewrite orb_comm. exact (processed_reads p a []).
Qed.

(** ** Agents *)

Lemma In_push_agent (L : list string) (key a : string) :
  In a (push_agent L key) <-> In a L \/ a = key.
Proof.
  unfold push_agent. destruct (existsb (String.eqb key) L) eqn:E.
  - apply existsb_exists in E. destruct E as [x [Hx Hkx]].
    apply String.eqb_eq in Hkx. subst x.
    split; [tauto|]. intros [H | ->]; assumption.
  - rewrite in_app_iff. simpl. intuition.
Qed.

Lemma NoDup_push_agent (L : list string) (key : string) :
  NoDup L -> NoDup (push_agent L key).
Proof.
  intros HL. unfold push_agent. destruct (existsb (String.eqb key) L) eqn:E;
    [exact HL|].
  apply NoDup_app; [exact HL | repeat constructor; intros [] |].
  intros x Hx [Heq | []]. subst x.
  assert (existsb (String.eqb key) L = true) as Hex; [|congruence].
  apply existsb_exists. exists key. split; [exact Hx | apply String.eqb_refl].
Qed.

Lemma fold_push_agent (keys : list string) :
  forall L,
    (NoDup L -> NoDup (fold_left push_agent keys L))
    /\ forall a, In a (fold_left push_agent keys L) <-> In a L \/ In a keys.
Proof.
  induction keys as [|key keys IH]; intros L; simpl.
  - split; [auto | intros a; tauto].
  - destruct (IH (push_agent L key)) as [Hdup Hin]. split.
    + intros HL. apply Hdup. now apply NoDup_push_agent.
    + intros a. rewrite Hin, In_push_agent. intuition.
Qed.

Lemma In_keys_map_get (a : string) (s : Map) :
  In a (map fst s) <-> map_get a s <> None.
Proof.
  induction s as [|[k v] s IH]; simpl.
  - split; [tauto | congruence].
  - destruct (String.eqb a k) eqn:E.
    + apply String.eqb_eq in E. subst k. split; [discriminate | auto].
    + rewrite <- IH. split; [|auto]. intros [-> | H]; [|exact H].
      now rewrite String.eqb_refl in E.
Qed.

Lemma getAllAgents_fold (states : Model) :
  Forall (fun state => match state with
                       | Some st => exists s, successors st = SuccMap s
                       | None => True
                       end) states ->
  forall L0,
    exists L,
      fold_left (fun acc state =>
                   L <- acc ;;
                   match state with
                   | Some st =>
                       match successors st with
                       | SuccMap g => Ret (fold_left push_agent (map fst g) L)
                       | SuccObject => Throw TypeError
                       end
                   | None => Ret L
                   end) states (Ret L0) = Ret L
      /\ (NoDup L0 -> NoDup L)
      /\ forall a, In a L <-> In a L0 \/ has_entry a states.
Proof.
  intros Hmaps. induction Hmaps as [|state states Hstate _ IH]; intros L0.
  - exists L0. simpl. split; [reflexivity|]. split; [auto|].
    intros a. split; [auto|]. intros [H | [st [s [[] _]]]]. exact H.
  - simpl. destruct state as [st|].
    + destruct Hstate as [g Hg]. rewrite Hg.
      destruct (fold_push_agent (map fst g) L0) as [Hdup Hin].
      destruct (IH (fold_left push_agent (map fst g) L0)) as [L [HL [HLdup HLin]]].
      exists L. split; [exact HL|]. split; [auto|].
      intros a. rewrite HLin, Hin, In_keys_map_get. split.
      * intros [[H | H] | [st' [s [Hst' Hs]]]]; [now left | |].
        -- right. exists st, g. split; [now left | now split].
        -- right. exists st', s. split; [now right | exact Hs].
      * intros [H | [st' [s [[Heq | Hst'] [Hs Ha]]]]]; [now left; left | |].
        -- injection Heq as <-. rewrite Hg in Hs. injection Hs as <-.
           left. now right.
        -- right. exists st', s. now repeat split.
    + destruct (IH L0) as [L [HL [HLdup HLin]]].
      exists L. split; [exact HL|]. split; [exact HLdup|].
      intros a. rewrite HLin. split.
      * intros [H | [st' [s [Hst' Hs]]]]; [now left|].
        right. exists st', s. split; [now right | exact Hs].
      * intros [H | [st' [s [[Heq | Hst'] Hs]]]]; [now left | discriminate |].
        right. exists st', s. now split.
Qed.

Lemma maps_only_Forall (m : Model) :
  maps_only m ->
  Forall (fun state => match state with
                       | Some st => exists s, successors st = SuccMap s
                       | None => True
                       end) m.
Proof.
  intros Hm. apply Forall_forall. intros [st|] Hin; [|exact I].
  apply In_nth_error in Hin. destruct Hin as [i Hi].
  apply (Hm i st). unfold state_at. now rewrite Hi.
Qed.

(** X10: on a model whose states hold Maps, [getAllAgents()] returns each
    agent that has an entry in the relation of some existing world, once,
    and nothing else (an agent whose array has become empty is still
    listed, since its entry stays). *)
Theorem getAllAgents_lists_entries :
  forall m : Model,
    maps_only m ->
    exists L,
      getAllAgents m = Ret L
      /\ NoDup L
      /\ forall a, In a L
                   <-> exists i st s, state_at m i = Some st
                                      /\ successors st = SuccMap s
                                      /\ map_get a s <> None.
Proof.
  intros m Hm.
  destruct (getAllAgents_fold m (maps_only_Forall m Hm) []) as [L [HL [Hdup Hin]]].
  exists L. split; [exact HL|]. split; [apply Hdup; constructor|].
  intros a. rewrite Hin. split.
  - intros [[] | [st [s [Hst Hs]]]].
    apply In_nth_error in Hst. destruct Hst as [i Hi].
    exists i, st, s. split; [|exact Hs]. unfold state_at. now rewrite Hi.
  - intros [i [st [s [Hst Hs]]]]. right. exists st, s. split; [|exact Hs].
    apply state_at_nth_error in Hst. eapply nth_error_In. exact Hst.
Qed.

Lemma getAllAgents_lists_entries_witness :
  exists L,
    getAllAgents two_agents = Ret L
    /\ NoDup L
    /\ forall a, In a L
                 <-> exists i st s, state_at two_agents i = Some st
                                    /\ successors st = SuccMap s
                                    /\ map_get a s <> None.
Proof.
  apply (getAllAgents_lists_entries two_agents).
  intros i st Hst.
  destruct i as [|[|[|i]]]; vm_compute in Hst.
  - injection Hst as <-. simpl. eauto.
  - injection Hst as <-. simpl. eauto.
  - injection Hst as <-. simpl. eauto.
  - destruct i; discriminate.
Defined.

(** ** More on the truth evaluator *)

Lemma truth_returns_object (G model : Model) (state : nat) (f v : jsval) :
  _truth G model state f = Ret v -> truthy f = true.
Proof. destruct f; simpl; try discriminate. reflexivity. Qed.

Lemma connectives_values :
  forall (G model : Model) (state : nat) (f g : jsval) (a : bool),
    _truth G model state f = Ret (JBool a) ->
    _truth G model state (Neg f) = Ret (JBool (negb a))
    /\ (a = false -> _truth G model state (Conj f g) = Ret (JBool false))
    /\ (a = true -> _truth G model state (Disj f g) = Ret (JBool true))
    /\ (a = false -> _truth G model state (Impl f g) = Ret (JBool true))
    /\ (forall b, _truth G model state g = Ret (JBool b) ->
          _truth G model state (Conj f g) = Ret (JBool (a && b))
          /\ _truth G model state (Disj f g) = Ret (JBool (a || b))
          /\ _truth G model state (Impl f g) = Ret (JBool (negb a || b))
          /\ _truth G model state (Equi f g) = Ret (JBool (Bool.eqb a b))).
Proof.
  intros G model state f g a Hf.
  pose proof (truth_returns_object G model state f _ Hf) as Hobj.
  split; [|split; [|split; [|split]]].
  - unfold Neg. simpl. rewrite Hobj, Hf. reflexivity.
  - intros ->. unfold Conj. simpl. rewrite Hf. reflexivity.
  - intros ->. unfold Disj. simpl. rewrite Hf. reflexivity.
  - intros ->. unfold Impl. simpl. rewrite Hf. reflexivity.
  - intros b Hg. unfold Conj, Disj, Impl, Equi. simpl. rewrite Hf. simpl.
    rewrite Hg. simpl. destruct a; simpl; repeat split; reflexivity.
Qed.


(** X11: the Boolean connectives over operands that evaluate to Booleans:
    [Neg] negates, [Conj], [Disj], [Impl] and [Equi] are conjunction,
    disjunction, material implication and equality of the two values; and
    [Conj], [Disj] and [Impl] do not evaluate their second operand (which
    may be anything, also a value that would throw) once the first decides
    the result. *)
Theorem connectives_are_boolean :
  forall (G model : Model) (state : nat) (f g : jsval) (a : bool),
    _truth G model state f = Ret (JBool a) ->
    _truth G model state (Neg f) = Ret (JBool (negb a))
    /\ (a = false -> _truth G model state (Conj f g) = Ret (JBool false))
    /\ (a = true -> _truth G model state (Disj f g) = Ret (JBool true))
    /\ (a = false -> _truth G model state (Impl f g) = Ret (JBool true))
    /\ (forall b, _truth G model state g = Ret (JBool b) ->
          _truth G model state (Conj f g) = Ret (JBool (a && b))
          /\ _truth G model state (Disj f g) = Ret (JBool (a || b))
          /\ _truth G model state (Impl f g) = Ret (JBool (negb a || b))
          /\ _truth G model state (Equi f g) = Ret (JBool (Bool.eqb a b))).
Proof. exact connectives_values. Qed.

Lemma connectives_are_boolean_witness :
  _truth three_worlds three_worlds 1 (Conj (Prop_ "p") (Prop_ "q"))
  = Ret (JBool (true && false))
  /\ _truth three_worlds three_worlds 1 (Impl (Neg (Prop_ "p")) JNull)
     = Ret (JBool true).
Proof.
  split.
  - apply (proj2 (proj2 (proj2 (proj2
             (connectives_are_boolean three_worlds three_worlds 1
                (Prop_ "p") (Prop_ "q") true eq_refl)))) false eq_refl).
  - apply (proj1 (proj2 (proj2 (proj2
             (connectives_are_boolean three_worlds three_worlds 1
                (Neg (Prop_ "p")) JNull false eq_refl))))).
    reflexivity.
Defined.

Lemma every_bool {A : Type} (F : A -> result jsval) (v : A -> bool) (L : list A) :
  (forall x, In x L -> F x = Ret (JBool (v x))) ->
  every F L = Ret (forallb v L).
Proof.
  induction L as [|x L IH]; intros H; simpl; [reflexivity|].
  rewrite (H x) by now left. simpl. destruct (v x); simpl; [|reflexivity].
  apply IH. intros y Hy. apply H. now right.
Qed.

Lemma some_bool {A : Type} (F : A -> result jsval) (v : A -> bool) (L : list A) :
  (forall x, In x L -> F x = Ret (JBool (v x))) ->
  some F L = Ret (existsb v L).
Proof.
  induction L as [|x L IH]; intros H; simpl; [reflexivity|].
  rewrite (H x) by now left. simpl. destruct (v x); simpl; [reflexivity|].
  apply IH. intros y Hy. apply H. now right.
Qed.

(** X12: [Know(a, f)] at a world where agent [a] has the successor array
    [L], when [f] evaluates to a Boolean at each world of [L]: the result is
    [true] exactly when [f] is true at every world of [L] (one step of the
    relation of [a] only). *)
Theorem know_tests_every_successor :
  forall (G model : Model) (state : nat) (st : State) (s : Map) (a : string)
         (f : jsval) (L : list nat) (v : nat -> bool),
    state_at model state = Some st ->
    successors st = SuccMap s ->
    map_get a s = Some L ->
    (forall x, In x L -> _truth G model x f = Ret (JBool (v x))) ->
    _truth G model state (Know a f) = Ret (JBool (forallb v L)).
Proof.
  intros G model state st s a f L v Hst Hs Ha Hf.
  unfold Know, agent_node. simpl.
  unfold getSuccessorsOf. rewrite Hst, Hs. simpl. rewrite Ha.
  rewrite (every_bool _ v L Hf). reflexivity.
Qed.

Lemma know_tests_every_successor_witness :
  _truth three_worlds three_worlds 0 (Know "b" (Prop_ "p"))
  = Ret (JBool (forallb (fun x => Nat.eqb x 1) [2])).
Proof.
  apply (know_tests_every_successor three_worlds three_worlds 0
           (mkState [] (SuccMap [("a", [1]); ("b", [2])]))
           [("a", [1]); ("b", [2])] "b" (Prop_ "p") [2] (fun x => Nat.eqb x 1));
    try reflexivity.
  intros x [<- | []]. reflexivity.
Defined.

(** X13: [Nec(f)] and [Poss(f)] at a world whose Map has at least one
    entry quantify over the successor array of the first entry only (the
    agent that got a transition first): every world of it for [Nec], some
    world of it for [Poss]; the arrays of the other agents are not read. *)
Theorem nec_poss_read_first_entry :
  forall (G model : Model) (state : nat) (st : State) (a0 : string)
         (L0 : list nat) (others : Map) (f : jsval) (v : nat -> bool),
    state_at model state = Some st ->
    successors st = SuccMap ((a0, L0) :: others) ->
    truthy f = true ->
    (forall x, In x L0 -> _truth G model x f = Ret (JBool (v x))) ->
    _truth G model state (Nec f) = Ret (JBool (forallb v L0))
    /\ _truth G model state (Poss f) = Ret (JBool (existsb v L0)).
Proof.
  intros G model state st a0 L0 others f v Hst Hs Hobj Hf.
  unfold Nec, Poss. simpl. rewrite Hobj.
  unfold getSuccessorsOfOld. rewrite Hst, Hs. simpl.
  rewrite (every_bool _ v L0 Hf), (some_bool _ v L0 Hf). split; reflexivity.
Qed.

Lemma nec_poss_read_first_entry_witness :
  _truth three_worlds three_worlds 0 (Nec (Prop_ "p"))
  = Ret (JBool (forallb (fun x => Nat.eqb x 1) [1]))
  /\ _truth three_worlds three_worlds 0 (Poss (Prop_ "p"))
     = Ret (JBool (existsb (fun x => Nat.eqb x 1) [1])).
Proof.
  apply (nec_poss_read_first_entry three_worlds three_worlds 0
           (mkState [] (SuccMap [("a", [1]); ("b", [2])]))
           "a" [1] [("b", [2])] (Prop_ "p") (fun x => Nat.eqb x 1));
    try reflexivity.
  intros x [<- | []]. reflexivity.
Defined.

(** X14: handed a single agent leaf [{prop: a}] as their group, the three
    group operators do not treat it as a group of one: the leaf is evaluated
    as a proposition, its value is no array, and the operator returns
    [undefined] without looking at [f]. *)
Theorem single_agent_group_is_undefined :
  forall (G model : Model) (state : nat) (st : State) (a : string) (f : jsval),
    state_at model state = Some st ->
    a <> EmptyString ->
    _truth G model state (EveryoneKnows (agent_node a) f) = Ret JUndefined
    /\ _truth G model state (Distributed (agent_node a) f) = Ret JUndefined
    /\ _truth G model state (Common (agent_node a) f) = Ret JUndefined.
Proof.
  intros G model state st a f Hst Ha.
  destruct a as [|c a]; [congruence|].
  unfold EveryoneKnows, Distributed, Common, agent_node. simpl.
  unfold valuation. rewrite Hst. simpl.
  repeat split; reflexivity.
Qed.

Lemma single_agent_group_is_undefined_witness :
  _truth one_world one_world 0 (EveryoneKnows (agent_node "a") (Prop_ "p"))
  = Ret JUndefined
  /\ _truth one_world one_world 0 (Distributed (agent_node "a") (Prop_ "p"))
     = Ret JUndefined
  /\ _truth one_world one_world 0 (Common (agent_node "a") (Prop_ "p"))
     = Ret JUndefined.
Proof.
  apply (single_agent_group_is_undefined one_world one_world 0
           (mkState [] (SuccMap [])) "a" (Prop_ "p")); [reflexivity | discriminate].
Defined.

Lemma push_if_new_object (o : key -> jsval) (L : list jsval) :
  push_if_new (JObj o) L = L ++ [JObj o].
Proof.
  unfold push_if_new.
  assert (existsb (strict_equal (JObj o)) L = false) as ->; [|reflexivity].
  induction L as [|x L IH]; simpl; [reflexivity | exact IH].
Qed.

Lemma last_cons {A : Type} (rest : list A) :
  forall c b : A, last (c :: rest) b = last rest c.
Proof.
  induction rest as [|x rest IH]; intros c b; [reflexivity|].
  change (last (c :: x :: rest) b) with (last (x :: rest) b).
  now rewrite !IH.
Qed.

Lemma group_loop_group_of (b : string) (rest : list string) :
  forall (a : string) (L : list jsval),
    truthy (JStr (last rest b)) = true ->
    group_loop (JArr [agent_node a; group_of b rest]) L
    = Ret (L ++ map agent_node (a :: b :: rest)).
Proof.
  revert b. induction rest as [|c rest IH]; intros b a L Hlast.
  - cbn [group_of last] in *.
    change (group_loop (JArr [agent_node a; agent_node b]) L)
      with (let L1 := push_if_new (agent_node a) L in
            let L2 := if truthy (JStr b) then L1 ++ [agent_node b] else L1 in
            Ret (A := list jsval) L2).
    cbv zeta. rewrite Hlast. unfold agent_node at 1, obj at 1.
    rewrite push_if_new_object. now rewrite <- app_assoc.
  - change (group_loop (JArr [agent_node a; group_of b (c :: rest)]) L)
      with (group_loop (JArr [agent_node b; group_of c rest])
              (push_if_new (agent_node a) L)).
    unfold agent_node at 2, obj at 1. rewrite push_if_new_object.
    rewrite last_cons in Hlast.
    rewrite (IH c b _ Hlast). now rewrite <- app_assoc.
Qed.

Lemma group_of_value :
  forall (G model : Model) (state : nat) (a b : string) (rest : list string),
    last rest b <> EmptyString ->
    _truth G model state (group_of a (b :: rest))
    = Ret (JArr (map agent_node (a :: b :: rest))).
Proof.
  intros G model state a b rest Hlast.
  cbn [group_of]. unfold Group. unfold obj at 1.
  cbn [_truth key_eqb truthy].
  rewrite (group_loop_group_of b rest a []); [reflexivity|].
  destruct (last rest b); [congruence | reflexivity].
Qed.


(** X15: a right-nested group of two or more agent leaves evaluates to the
    array of those leaves, in order and with repetitions kept (an agent
    named twice is listed twice); the last leaf is listed only when its name
    is non-empty. *)
Theorem group_lists_its_agents :
  forall (G model : Model) (state : nat) (a b : string) (rest : list string),
    last rest b <> EmptyString ->
    _truth G model state (group_of a (b :: rest))
    = Ret (JArr (map agent_node (a :: b :: rest))).
Proof. exact group_of_value. Qed.

Lemma group_lists_its_agents_witness :
  _truth one_world one_world 0 (group_of "a" ["b"; "a"])
  = Ret (JArr (map agent_node ["a"; "b"; "a"])).
Proof.
  apply (group_lists_its_agents one_world one_world 0 "a" "b" ["a"]).
  discriminate.
Defined.

Lemma every_map {A B : Type} (F : B -> result jsval) (g : A -> B) (L : list A) :
  every F (map g L) = every (fun x => F (g x)) L.
Proof.
  induction L as [|x L IH]; simpl; [reflexivity|].
  destruct (F (g x)) as [v|e]; simpl; [|reflexivity].
  destruct (truthy v); [exact IH | reflexivity].
Qed.

(** X16: over a group of two or more agents, [EveryoneKnows(group, f)] is
    the conjunction of [Know(x, f)] for the agents [x] of the group, taken in
    order, whenever each of these evaluates to a Boolean. *)
Theorem everyone_knows_is_conjunction :
  forall (G model : Model) (state : nat) (a b : string) (rest : list string)
         (f : jsval) (k : string -> bool),
    last rest b <> EmptyString ->
    (forall x, In x (a :: b :: rest) ->
               _truth G model state (Know x f) = Ret (JBool (k x))) ->
    _truth G model state (EveryoneKnows (group_of a (b :: rest)) f)
    = Ret (JBool (forallb k (a :: b :: rest))).
Proof.
  intros G model state a b rest f k Hlast Hknow.
  pose proof (group_of_value G model state a b rest Hlast) as Hgroup.
  set (names := a :: b :: rest) in *.
  set (grp := group_of a (b :: rest)) in *. clearbody grp names.
  unfold EveryoneKnows. simpl. rewrite Hgroup. simpl.
  rewrite every_map.
  rewrite (every_bool _ k names); [reflexivity|].
  intros x Hx. exact (Hknow x Hx).
Qed.

Lemma everyone_knows_is_conjunction_witness :
  _truth three_worlds three_worlds 0
    (EveryoneKnows (group_of "a" ["b"]) (Prop_ "p"))
  = Ret (JBool (forallb (fun x => String.eqb x "a") ["a"; "b"])).
Proof.
  apply (everyone_knows_is_conjunction three_worlds three_worlds 0 "a" "b" []
           (Prop_ "p") (fun x => String.eqb x "a")).
  - discriminate.
  - intros x [<- | [<- | []]]; reflexivity.
Defined.

(** ** Well-formed formulas *)

Lemma named_truthy (s : string) :
  named s -> negb (Nat.eqb (String.length s) 0) = true.
Proof. destruct s; [intros H; now elim H | reflexivity]. Qed.

Lemma append_empty_r (s : string) : (s ++ "")%string = s.
Proof. induction s as [|c s IH]; simpl; [reflexivity | now rewrite IH]. Qed.

Lemma jsonToASCII_group (b : string) (rest : list string) :
  forall a, Forall named (a :: b :: rest) ->
            _jsonToASCII (group_of a (b :: rest))
            = Ret (JStr (render_group a (b :: rest))).
Proof.
  revert b. induction rest as [|c rest IH]; intros b a Hnames.
  - inversion Hnames as [|? ? Ha Hb]; subst. inversion Hb as [|? ? Hb' _]; subst.
    cbn [group_of]. unfold Group, agent_node, obj. cbn.
    rewrite (named_truthy a Ha), (named_truthy b Hb').
    unfold infix. cbn. now rewrite append_empty_r.
  - inversion Hnames as [|? ? Ha Hrest]; subst.
    specialize (IH c b Hrest).
    change (group_of a (b :: c :: rest))
      with (Group (agent_node a) (group_of b (c :: rest))).
    unfold Group at 1, agent_node at 1, obj at 1 2.
    cbn [_jsonToASCII key_eqb truthy binary_node].
    rewrite (named_truthy a Ha). cbn [bind]. rewrite IH.
    unfold infix. cbn. now rewrite append_empty_r.
Qed.

Lemma to_json_truthy (f : formula) : truthy (to_json f) = true.
Proof. destruct f; reflexivity. Qed.

Lemma jsonToASCII_render (f : formula) :
  names_ok f -> _jsonToASCII (to_json f) = Ret (JStr (render f)).
Proof.
  induction f as [p | f IH | f IH | f IH | f IHf g IHg | f IHf g IHg
                 | f IHf g IHg | f IHf g IHg | a f IH
                 | a b rest f IH | a b rest f IH | a b rest f IH];
    cbn [names_ok to_json render].
  - intros Hp. unfold Prop_, obj. cbn. now rewrite (named_truthy p Hp).
  - intros H. unfold Neg, obj. cbn [_jsonToASCII key_eqb truthy].
    rewrite to_json_truthy, (IH H). reflexivity.
  - intros H. unfold Nec, obj. cbn [_jsonToASCII key_eqb truthy].
    rewrite to_json_truthy, (IH H). reflexivity.
  - intros H. unfold Poss, obj. cbn [_jsonToASCII key_eqb truthy].
    rewrite to_json_truthy, (IH H). reflexivity.
  - intros [Hf Hg]. unfold Conj, obj.
    cbn [_jsonToASCII key_eqb truthy binary_node].
    rewrite (IHf Hf). cbn [bind]. rewrite (IHg Hg). reflexivity.
  - intros [Hf Hg]. unfold Disj, obj.
    cbn [_jsonToASCII key_eqb truthy binary_node].
    rewrite (IHf Hf). cbn [bind]. rewrite (IHg Hg). reflexivity.
  - intros [Hf Hg]. unfold Impl, obj.
    cbn [_jsonToASCII key_eqb truthy binary_node].
    rewrite (IHf Hf). cbn [bind]. rewrite (IHg Hg). reflexivity.
  - intros [Hf Hg]. unfold Equi, obj.
    cbn [_jsonToASCII key_eqb truthy binary_node].
    rewrite (IHf Hf). cbn [bind]. rewrite (IHg Hg). reflexivity.
  - intros [Ha Hf]. unfold Know, agent_node, obj.
    cbn [_jsonToASCII key_eqb truthy binary_node].
    rewrite (named_truthy a Ha). cbn [bind]. rewrite (IH Hf). reflexivity.
  - intros [Hn Hf]. unfold EveryoneKnows, obj.
    cbn [_jsonToASCII key_eqb truthy binary_node].
    rewrite (jsonToASCII_group b rest a Hn). cbn [bind]. rewrite (IH Hf).
    reflexivity.
  - intros [Hn Hf]. unfold Distributed, obj.
    cbn [_jsonToASCII key_eqb truthy binary_node].
    rewrite (jsonToASCII_group b rest a Hn). cbn [bind]. rewrite (IH Hf).
    reflexivity.
  - intros [Hn Hf]. unfold Common, obj.
    cbn [_jsonToASCII key_eqb truthy binary_node].
    rewrite (jsonToASCII_group b rest a Hn). cbn [bind]. rewrite (IH Hf).
    reflexivity.
Qed.

(** X17: [new Wff] accepts the tree of every formula whose propositions and
    agents have non-empty names: it returns a Wff that holds this tree, and
    whose ASCII text is the formula written out with prefix operators bare
    and each binary operator in parentheses (a group as its agents
    separated by " , "). *)
Theorem new_Wff_accepts_formulas :
  forall (parse : jsval -> result jsval) (f : formula),
    names_ok f ->
    exists w,
      new_Wff parse (to_json f) = Ret w
      /\ _json w = to_json f
      /\ _ascii w = JStr (render f).
Proof.
  intros parse f Hf. unfold new_Wff.
  assert (typeof_object (to_json f) = true) as -> by (destruct f; reflexivity).
  cbn [bind]. rewrite (jsonToASCII_render f Hf). cbn [bind].
  unfold _asciiToLaTeX, _asciiToUnicode. cbn [bind].
  eexists. split; [reflexivity|]. split; reflexivity.
Qed.

Lemma new_Wff_accepts_formulas_witness :
  exists w,
    new_Wff (fun _ => Throw TypeError)
      (to_json (FCommon "a" "b" [] (FImpl (FProp "p") (FNec (FProp "q")))))
    = Ret w
    /\ _json w = to_json (FCommon "a" "b" [] (FImpl (FProp "p") (FNec (FProp "q"))))
    /\ _ascii w = JStr "(a , b § (p -> []q))".
Proof.
  apply (new_Wff_accepts_formulas (fun _ => Throw TypeError)
           (FCommon "a" "b" [] (FImpl (FProp "p") (FNec (FProp "q"))))).
  simpl. repeat split; try discriminate.
  repeat constructor; discriminate.
Defined.

Lemma every_total {A : Type} (F : A -> result jsval) (L : list A) :
  (forall x, In x L -> exists b, F x = Ret (JBool b)) ->
  exists b, every F L = Ret b.
Proof.
  induction L as [|x L IH]; intros H; simpl; [eauto|].
  destruct (H x) as [b ->]; [now left|]. simpl.
  destruct b; [|eauto]. apply IH. intros y Hy. apply H. now right.
Qed.

Lemma some_total {A : Type} (F : A -> result jsval) (L : list A) :
  (forall x, In x L -> exists b, F x = Ret (JBool b)) ->
  exists b, some F L = Ret b.
Proof.
  induction L as [|x L IH]; intros H; simpl; [eauto|].
  destruct (H x) as [b ->]; [now left|]. simpl.
  destruct b; [eauto|]. apply IH. intros y Hy. apply H. now right.
Qed.

Lemma map_get_In (a : string) (L : list nat) (s : Map) :
  map_get a s = Some L -> In (a, L) s.
Proof.
  induction s as [|[k v] s IH]; simpl; [discriminate|].
  destruct (String.eqb a k) eqn:E.
  - apply String.eqb_eq in E. subst k. intros [= ->]. now left.
  - intros H. right. now apply IH.
Qed.

(** X18: on a model whose states hold Maps and whose transitions all lead
    to existing worlds, evaluating at an existing world a formula without
    group operators (propositions, Boolean connectives, [Nec], [Poss],
    [Know]) never throws and returns a Boolean. *)
Theorem modal_formulas_evaluate_to_booleans :
  forall (G model : Model) (f : formula),
    maps_only model -> closed_model model ->
    names_ok f -> modal f ->
    forall (state : nat) (st : State),
      state_at model state = Some st ->
      exists b, _truth G model state (to_json f) = Ret (JBool b).
Proof.
  intros G model f Hmaps Hclosed.
  induction f as [p | f IH | f IH | f IH | f IHf g IHg | f IHf g IHg
                 | f IHf g IHg | f IHf g IHg | a f IH
                 | a b rest f IH | a b rest f IH | a b rest f IH];
    cbn [names_ok modal to_json]; intros Hnames Hmodal state st Hst;
    try contradiction.
  - destruct p as [|c p]; [now elim Hnames|].
    unfold Prop_, obj. simpl. unfold valuation. rewrite Hst. simpl. eauto.
  - destruct (IH Hnames Hmodal state st Hst) as [b Hb].
    exists (negb b). exact (proj1 (connectives_values G model state _ JNull b Hb)).
  - destruct (Hmaps state st Hst) as [s Hs].
    unfold Nec, obj. simpl. rewrite to_json_truthy.
    unfold getSuccessorsOfOld. rewrite Hst, Hs. simpl.
    destruct s as [|[a0 L0] others]; simpl; [eauto|].
    destruct (every_total (fun succState => _truth G model succState (to_json f)) L0)
      as [b ->]; [|simpl; eauto].
    intros x Hx.
    destruct (Hclosed state st _ a0 L0 x Hst Hs (or_introl eq_refl) Hx) as [st' Hst'].
    exact (IH Hnames Hmodal x st' Hst').
  - destruct (Hmaps state st Hst) as [s Hs].
    unfold Poss, obj. simpl. rewrite to_json_truthy.
    unfold getSuccessorsOfOld. rewrite Hst, Hs. simpl.
    destruct s as [|[a0 L0] others]; simpl; [eauto|].
    destruct (some_total (fun succState => _truth G model succState (to_json f)) L0)
      as [b ->]; [|simpl; eauto].
    intros x Hx.
    destruct (Hclosed state st _ a0 L0 x Hst Hs (or_introl eq_refl) Hx) as [st' Hst'].
    exact (IH Hnames Hmodal x st' Hst').
  - destruct Hnames as [Hnf Hng]. destruct Hmodal as [Hmf Hmg].
    destruct (IHf Hnf Hmf state st Hst) as [a Ha].
    destruct (IHg Hng Hmg state st Hst) as [b Hb].
    exists (a && b).
    exact (proj1 (proj2 (proj2 (proj2 (proj2
             (connectives_values G model state _ (to_json g) a Ha))))
             b Hb)).
  - destruct Hnames as [Hnf Hng]. destruct Hmodal as [Hmf Hmg].
    destruct (IHf Hnf Hmf state st Hst) as [a Ha].
    destruct (IHg Hng Hmg state st Hst) as [b Hb].
    exists (a || b).
    exact (proj1 (proj2 (proj2 (proj2 (proj2 (proj2
             (connectives_values G model state _ (to_json g) a Ha))))
             b Hb))).
  - destruct Hnames as [Hnf Hng]. destruct Hmodal as [Hmf Hmg].
    destruct (IHf Hnf Hmf state st Hst) as [a Ha].
    destruct (IHg Hng Hmg state st Hst) as [b Hb].
    exists (negb a || b).
    exact (proj1 (proj2 (proj2 (proj2 (proj2 (proj2 (proj2
             (connectives_values G model state _ (to_json g) a Ha))))
             b Hb)))).
  - destruct Hnames as [Hnf Hng]. destruct Hmodal as [Hmf Hmg].
    destruct (IHf Hnf Hmf state st Hst) as [a Ha].
    destruct (IHg Hng Hmg state st Hst) as [b Hb].
    exists (Bool.eqb a b).
    exact (proj2 (proj2 (proj2 (proj2 (proj2 (proj2 (proj2
             (connectives_values G model state _ (to_json g) a Ha))))
             b Hb)))).
  - destruct Hnames as [Ha Hnf].
    destruct (Hmaps state st Hst) as [s Hs].
    unfold Know, agent_node, obj. simpl.
    unfold getSuccessorsOf. rewrite Hst, Hs. simpl.
    destruct (map_get a s) as [L|] eqn:HL; simpl; [|eauto].
    destruct (every_total (fun succState => _truth G model succState (to_json f)) L)
      as [b ->]; [|simpl; eauto].
    intros x Hx.
    destruct (Hclosed state st _ a L x Hst Hs (map_get_In a L s HL) Hx) as [st' Hst'].
    exact (IH Hnf Hmodal x st' Hst').
Qed.

Lemma modal_formulas_evaluate_to_booleans_witness :
  exists b,
    _truth three_worlds three_worlds 0
      (to_json (FKnow "a" (FImpl (FProp "p") (FPoss (FProp "q"))))) = Ret (JBool b).
Proof.
  apply (modal_formulas_evaluate_to_booleans three_worlds three_worlds
           (FKnow "a" (FImpl (FProp "p") (FPoss (FProp "q"))))
           ) with (st := mkState [] (SuccMap [("a", [1]); ("b", [2])])).
  - intros i st Hst.
    destruct i as [|[|[|i]]]; vm_compute in Hst.
    + injection Hst as <-. simpl. eauto.
    + injection Hst as <-. simpl. eauto.
    + injection Hst as <-. simpl. eauto.
    + destruct i; discriminate.
  - intros i st s a L x Hst Hs Hin Hx.
    destruct i as [|[|[|i]]]; vm_compute in Hst.
    + injection Hst as <-. simpl in Hs. injection Hs as <-.
      destruct Hin as [[= <- <-] | [[= <- <-] | []]];
        destruct Hx as [<- | []]; vm_compute; eauto.
    + injection Hst as <-. simpl in Hs. injection Hs as <-. destruct Hin.
    + injection Hst as <-. simpl in Hs. injection Hs as <-. destruct Hin.
    + destruct i; discriminate.
  - simpl. repeat split; discriminate.
  - simpl. tauto.
  - reflexivity.
Defined.

(** ** The model string *)

Lemma split_not_nil (sep : ascii) (s : string) : split sep s <> [].
Proof.
  destruct s as [|c s]; simpl; [discriminate|].
  destruct (Ascii.eqb c sep); [discriminate|].
  destruct (split sep s); discriminate.
Qed.

Lemma regex_test_tokens (modelString : string) :
  regex_test modelString = true ->
  removelast (split ";" modelString) <> []
  /\ Forall (fun t => t = EmptyString \/ token_ok t = true)
            (removelast (split ";" modelString)).
Proof.
  unfold regex_test.
  destruct (rev (split ";" modelString)) as [|last tokens] eqn:Hrev; [discriminate|].
  destruct last; [|discriminate].
  assert (split ";" modelString = rev tokens ++ [EmptyString]) as ->.
  { rewrite <- (rev_involutive (split ";" modelString)), Hrev. reflexivity. }
  rewrite removelast_last. intros H. apply andb_prop in H. destruct H as [Hne Hall].
  split.
  - destruct tokens; [discriminate|]. simpl. intros H.
    apply app_eq_nil in H. destruct H as [_ H]. discriminate.
  - apply Forall_rev. apply Forall_forall. intros t Ht.
    rewrite forallb_forall in Hall. specialize (Hall t Ht).
    apply orb_prop in Hall. destruct Hall as [H | H]; [left | now right].
    destruct t; [reflexivity | discriminate].
Qed.

Lemma token_ok_match (t : string) :
  token_ok t = true -> exists props succs, match_A_S t = Some (props, succs).
Proof.
  unfold token_ok. destruct t as [|c rest]; [discriminate|].
  destruct (Ascii.eqb c "A") eqn:Hc.
  - apply Ascii.eqb_eq in Hc. subst c. simpl.
    destruct (split_last "S" rest) as [[props succs]|]; [eauto | discriminate].
  - intros H. exfalso.
    destruct c as [[|] [|] [|] [|] [|] [|] [|] [|]]; try discriminate.
Qed.

Lemma restore_state_valid (t : string) :
  t = EmptyString \/ token_ok t = true ->
  restore_state t
  = Ret (restored_state t,
         match t with
         | EmptyString => None
         | _ => Some (map to_number (listed_successors t))
         end).
Proof.
  unfold restore_state, restored_state, restored, listed_successors.
  intros [-> | Hok]; [reflexivity|].
  destruct (token_ok_match t Hok) as [props [succs Hm]].
  destruct t as [|c t]; [discriminate|]. rewrite Hm. reflexivity.
Qed.

Lemma load_first_loop (tokens : list string) :
  Forall (fun t => t = EmptyString \/ token_ok t = true) tokens ->
  forall now,
    forEach tokens (fun state now =>
                      match restore_state state with
                      | Ret (st, _) => (Ret tt, now ++ [st])
                      | Throw e => (Throw e, now)
                      end) now
    = (Ret tt, now ++ map restored_state tokens).
Proof.
  intros Hok. induction Hok as [|t tokens Ht _ IH]; intros now; simpl.
  - unfold ret. now rewrite app_nil_r.
  - unfold then_ at 1. rewrite (restore_state_valid t Ht).
    rewrite IH. now rewrite <- app_assoc.
Qed.

Lemma load_second_loop (tokens : list string) (m : Model) :
  Forall (fun t => t = EmptyString \/ token_ok t = true) tokens ->
  forEach tokens (fun state =>
    match restore_state state with
    | Ret (_, Some successors) =>
        forEach successors (fun target => throw ReferenceError)
    | _ => ret tt
    end) m
  = (if forallb (fun t => Nat.eqb (List.length (listed_successors t)) 0) tokens
     then Ret tt else Throw ReferenceError, m).
Proof.
  intros Hok. induction Hok as [|t tokens Ht _ IH]; simpl; [reflexivity|].
  unfold then_ at 1. rewrite (restore_state_valid t Ht).
  destruct t as [|c t].
  - simpl. exact IH.
  - destruct (listed_successors (String c t)) as [|x l]; simpl; [exact IH|].
    reflexivity.
Qed.

Lemma loadFromModelString_valid (modelString : string) (m : Model) :
  regex_test modelString = true ->
  loadFromModelString modelString m
  = (if forallb (fun t => Nat.eqb (List.length (listed_successors t)) 0)
                (removelast (split ";" modelString))
     then Ret tt else Throw ReferenceError,
     map restored_state (removelast (split ";" modelString))).
Proof.
  intros Hre. unfold loadFromModelString. rewrite Hre. simpl negb. cbv iota.
  destruct (regex_test_tokens modelString Hre) as [_ Hok].
  unfold then_. rewrite (load_first_loop _ Hok []). simpl app.
  now rewrite (load_second_loop _ _ Hok).
Qed.

(** X19: a model string that passes the format check replaces the states
    by one state per token (an empty token gives [null]), each with the
    listed propositions and with an empty plain object as relation; the call
    returns normally only when no token lists a successor index, and throws
    a ReferenceError (after the states are replaced) as soon as one does.
    A string that fails the check leaves the model as it is. *)
Theorem loadFromModelString_outcome :
  forall (modelString : string) (m : Model),
    (regex_test modelString = false ->
     loadFromModelString modelString m = (Ret tt, m))
    /\ (regex_test modelString = true ->
        let tokens := removelast (split ";" modelString) in
        snd (loadFromModelString modelString m) = map restored_state tokens
        /\ ((forall t, In t tokens -> listed_successors t = []) ->
            fst (loadFromModelString modelString m) = Ret tt)
        /\ ((exists t, In t tokens /\ listed_successors t <> []) ->
            fst (loadFromModelString modelString m) = Throw ReferenceError)).
Proof.
  intros modelString m. split.
  - intros Hre. unfold loadFromModelString. now rewrite Hre.
  - intros Hre tokens. rewrite (loadFromModelString_valid modelString m Hre).
    fold tokens. cbn [fst snd]. split; [reflexivity|]. split.
    + intros Hnone.
      assert (forallb (fun t => Nat.eqb (List.length (listed_successors t)) 0) tokens
              = true) as ->; [|reflexivity].
      apply forallb_forall. intros t Ht. now rewrite (Hnone t Ht).
    + intros [t [Ht Hsome]].
      destruct (forallb (fun t => Nat.eqb (List.length (listed_successors t)) 0) tokens)
        eqn:Hall; [|reflexivity].
      rewrite forallb_forall in Hall. specialize (Hall t Ht).
      destruct (listed_successors t); [now elim Hsome | discriminate].
Qed.

Lemma loadFromModelString_outcome_witness :
  loadFromModelString "ApSa1;" one_world = (Ret tt, one_world)
  /\ snd (loadFromModelString "Ap,qS1;;AS;" one_world)
     = map restored_state ["Ap,qS1"; ""; "AS"]
  /\ fst (loadFromModelString "Ap,qS1;;AS;" one_world) = Throw ReferenceError.
Proof.
  split; [|split].
  - apply (proj1 (loadFromModelString_outcome "ApSa1;" one_world)). reflexivity.
  - apply (proj1 (proj2 (loadFromModelString_outcome "Ap,qS1;;AS;" one_world)
                    eq_refl)).
  - apply (proj2 (proj2 (proj2 (loadFromModelString_outcome "Ap,qS1;;AS;" one_world)
                           eq_refl))).
    exists "Ap,qS1"%string. split; [now left | discriminate].
Defined.

Lemma append_assoc (a b c : string) : ((a ++ b) ++ c)%string = (a ++ b ++ c)%string.
Proof. induction a as [|x a IH]; simpl; [reflexivity | now rewrite IH]. Qed.

Lemma concat_empty_cons (x : string) (l : list string) :
  concat "" (x :: l) = (x ++ concat "" l)%string.
Proof.
  destruct l as [|y l]; simpl; [now rewrite append_empty_r | reflexivity].
Qed.

Lemma getModelString_tokens (m : Model) :
  forall acc : string,
    fold_left (fun modelString state =>
                 (match state with
                  | Some st =>
                      modelString ++ "A" ++ concat "," (obj_keys (assignment st))
                        ++ "S" ++ for_in_successors (successors st)
                  | None => modelString
                  end ++ ";")%string) m acc
    = (acc ++ concat "" (map (fun state => token_of state ++ ";") m))%string.
Proof.
  induction m as [|state m IH]; intros acc; cbn [fold_left map].
  - simpl. now rewrite append_empty_r.
  - rewrite IH, concat_empty_cons. destruct state as [[asg succ]|].
    + assert (for_in_successors succ = EmptyString) as Hfor by now destruct succ.
      unfold token_of. cbn [assignment successors]. rewrite Hfor.
      rewrite !append_assoc. cbn [append]. rewrite ?append_assoc.
      reflexivity.
    + unfold token_of. rewrite !append_assoc. reflexivity.
Qed.

Lemma all_chars_app (p : ascii -> bool) (a b : string) :
  all_chars p (a ++ b) = all_chars p a && all_chars p b.
Proof.
  induction a as [|x a IH]; simpl; [reflexivity|].
  now rewrite IH, andb_assoc.
Qed.

Lemma split_append (c : ascii) (t rest : string) :
  without c t -> split c (t ++ String c rest) = t :: split c rest.
Proof.
  unfold without. induction t as [|x t IH]; simpl; intros H.
  - now rewrite Ascii.eqb_refl.
  - apply andb_prop in H. destruct H as [Hx Ht].
    apply negb_true_iff in Hx. rewrite Hx, (IH Ht). reflexivity.
Qed.

Lemma split_without (c : ascii) (t : string) :
  without c t -> split c t = [t].
Proof.
  unfold without. induction t as [|x t IH]; simpl; intros H; [reflexivity|].
  apply andb_prop in H. destruct H as [Hx Ht].
  apply negb_true_iff in Hx. rewrite Hx, (IH Ht). reflexivity.
Qed.

Lemma split_concat (c : ascii) (keys : list string) :
  keys <> [] -> Forall (without c) keys ->
  split c (concat (String c EmptyString) keys) = keys.
Proof.
  intros Hne Hkeys. induction Hkeys as [|k keys Hk Hkeys IH]; [now elim Hne|].
  destruct keys as [|k' keys].
  - simpl. now apply split_without.
  - change (concat (String c "") (k :: k' :: keys))
      with (k ++ String c "" ++ concat (String c "") (k' :: keys))%string.
    simpl append at 2. rewrite (split_append c k _ Hk).
    f_equal. apply IH. discriminate.
Qed.

Lemma split_last_final (c : ascii) (s : string) :
  split_last c (s ++ String c EmptyString) = Some (s, EmptyString).
Proof.
  induction s as [|x s IH]; simpl.
  - now rewrite Ascii.eqb_refl.
  - now rewrite IH.
Qed.

Lemma is_word_without (c : ascii) (s : string) :
  is_word c = false -> all_chars is_word s = true -> without c s.
Proof.
  intros Hc. unfold without. induction s as [|x s IH]; simpl; [reflexivity|].
  intros H. apply andb_prop in H. destruct H as [Hx Hs].
  rewrite (IH Hs), andb_true_r. apply negb_true_iff.
  destruct (Ascii.eqb x c) eqn:E; [|reflexivity].
  apply Ascii.eqb_eq in E. subst x. congruence.
Qed.

Lemma concat_keys_empty (keys : list string) :
  Forall word_name keys ->
  concat "," keys = EmptyString -> keys = [].
Proof.
  intros Hkeys. destruct Hkeys as [|k keys [Hk _] _]; [reflexivity|].
  destruct k as [|x k]; [now elim Hk|].
  destruct keys; discriminate.
Qed.

Lemma keys_of_token (keys : list string) :
  Forall word_name keys ->
  split_commas (concat "," keys) = keys
  /\ comma_list is_word (concat "," keys) = true.
Proof.
  intros Hkeys.
  destruct (concat "," keys) as [|x K] eqn:HK.
  - rewrite (concat_keys_empty keys Hkeys HK). now split.
  - assert (keys <> []) as Hne by (intros ->; discriminate).
    assert (split "," (String x K) = keys) as Hsplit.
    { rewrite <- HK. apply split_concat; [exact Hne|].
      eapply Forall_impl; [|exact Hkeys]. intros k [_ Hk].
      now apply is_word_without. }
    unfold split_commas, comma_list. rewrite Hsplit. split; [reflexivity|].
    apply forallb_forall. intros k Hk.
    rewrite Forall_forall in Hkeys. destruct (Hkeys k Hk) as [Hnon Hword].
    rewrite Hword, andb_true_r. destruct k; [now elim Hnon | reflexivity].
Qed.

Lemma token_of_match (st : State) :
  match_A_S (token_of (Some st))
  = Some (concat "," (obj_keys (assignment st)), EmptyString).
Proof.
  unfold token_of. simpl. apply split_last_final.
Qed.

Lemma token_of_ok (state : option State) :
  printable state ->
  token_of state = EmptyString \/ token_ok (token_of state) = true.
Proof.
  destruct state as [st|]; [|now left]. intros [_ [_ Hkeys]]. right.
  unfold token_of, token_ok. simpl. rewrite split_last_final.
  now rewrite (proj2 (keys_of_token _ Hkeys)).
Qed.

Lemma token_of_without (state : option State) :
  printable state -> without ";" (token_of state).
Proof.
  destruct state as [st|]; [|reflexivity]. intros [_ [_ Hkeys]].
  unfold token_of, without. simpl. rewrite all_chars_app. simpl.
  rewrite andb_true_r.
  induction Hkeys as [|k keys [_ Hk] Hkeys IH]; [reflexivity|].
  destruct keys as [|k' keys].
  - simpl. now apply (is_word_without ";" k).
  - change (concat "," (k :: k' :: keys))
      with (k ++ "," ++ concat "," (k' :: keys))%string.
    rewrite all_chars_app. rewrite (is_word_without ";" k eq_refl Hk).
    simpl. exact IH.
Qed.

Lemma split_model_string (m : Model) :
  Forall printable m ->
  split ";" (concat "" (map (fun state => (token_of state ++ ";")%string) m))
  = map token_of m ++ [EmptyString].
Proof.
  intros Hm. induction Hm as [|state m Hstate _ IH]; [reflexivity|].
  cbn [map]. rewrite concat_empty_cons, append_assoc. cbn [append].
  rewrite (split_append ";" _ _ (token_of_without state Hstate)).
  now rewrite IH.
Qed.

Lemma has_own_keys (k : string) (o : object) :
  has_own k o = true <-> In k (obj_keys o).
Proof.
  unfold has_own, obj_keys. rewrite existsb_exists, in_map_iff. split.
  - intros [entry [Hin Heq]]. apply String.eqb_eq in Heq. eauto.
  - intros [entry [Heq Hin]]. exists entry. split; [exact Hin|].
    now apply String.eqb_eq.
Qed.

(** A property that would be listed before none of the others is created
    behind them. *)
Lemma create_last (k : string) (v : jsval) (o : object) :
  Forall (fun k' => before k k' = false) (obj_keys o) ->
  create k v o = o ++ [(k, v)].
Proof.
  induction o as [|[k' v'] o IH]; simpl; intros Hall; [reflexivity|].
  inversion Hall as [|? ? Hk' Hrest]; subst. rewrite Hk'.
  now rewrite (IH Hrest).
Qed.

Lemma enumeration_order_behind (l : list string) (k : string)
    (rest : list string) :
  enumeration_order (l ++ k :: rest) ->
  Forall (fun k' => before k k' = false) l.
Proof.
  induction l as [|x l IH]; simpl; [constructor|].
  intros [Hall Hrest]. constructor; [|now apply IH].
  apply Forall_app in Hall. destruct Hall as [_ Hall].
  now apply Forall_inv in Hall.
Qed.

Lemma listed_fresh (keys : list string) :
  forall acc : object,
    NoDup (obj_keys acc ++ keys) ->
    enumeration_order (obj_keys acc ++ keys) ->
    ~ In "__proto__" keys ->
    listed keys acc = acc ++ map (fun k => (k, JBool true)) keys.
Proof.
  unfold listed. induction keys as [|k keys IH]; intros acc Hdup Hord Hproto; simpl.
  - now rewrite app_nil_r.
  - assert (assign_true k acc = acc ++ [(k, JBool true)]) as Hset.
    { unfold assign_true, obj_set.
      assert (String.eqb k "__proto__" = false) as ->.
      { apply String.eqb_neq. intros ->. apply Hproto. now left. }
      assert (has_own k acc = false) as ->.
      { destruct (has_own k acc) eqn:Hown; [|reflexivity].
        apply has_own_keys in Hown. apply NoDup_remove_2 in Hdup.
        elim Hdup. apply in_app_iff. now left. }
      simpl. apply create_last.
      exact (enumeration_order_behind _ _ _ Hord). }
    rewrite Hset. rewrite IH.
    + now rewrite <- app_assoc.
    + unfold obj_keys in *. rewrite map_app. simpl. rewrite <- app_assoc. exact Hdup.
    + unfold obj_keys in *. rewrite map_app. simpl. rewrite <- app_assoc. exact Hord.
    + intros Hin. apply Hproto. now right.
Qed.

Lemma before_asym (k k' : string) :
  before k k' = true -> before k' k = false.
Proof.
  unfold before.
  destruct (array_index k) as [n|], (array_index k') as [n'|];
    try discriminate; try reflexivity.
  intros H. apply N.ltb_lt in H. apply N.ltb_ge. lia.
Qed.

Lemma before_behind (k k' y : string) :
  before k k' = true -> before y k' = false -> before y k = false.
Proof.
  unfold before.
  destruct (array_index k) as [n|], (array_index k') as [n'|],
           (array_index y) as [ny|];
    try discriminate; try reflexivity.
  intros H1 H2. apply N.ltb_lt in H1. apply N.ltb_ge in H2.
  apply N.ltb_ge. lia.
Qed.

Lemma obj_keys_update (k : string) (v : jsval) (o : object) :
  has_own k o = true -> obj_keys (update k v o) = obj_keys o.
Proof.
  unfold has_own, obj_keys. induction o as [|[k' v'] o IH]; simpl; [reflexivity|].
  destruct (String.eqb k k') eqn:E; simpl.
  - intros _. apply String.eqb_eq in E. now subst k'.
  - intros Hown. now rewrite (IH Hown).
Qed.

Lemma In_keys_create (x k : string) (v : jsval) (o : object) :
  In x (obj_keys (create k v o)) <-> x = k \/ In x (obj_keys o).
Proof.
  unfold obj_keys. induction o as [|[k' v'] o IH]; simpl.
  - split; intros [H | H]; auto.
  - destruct (before k k'); simpl; [split; intros [H | H]; auto|].
    rewrite IH. tauto.
Qed.

Lemma NoDup_keys_create (k : string) (v : jsval) (o : object) :
  ~ In k (obj_keys o) -> NoDup (obj_keys o) -> NoDup (obj_keys (create k v o)).
Proof.
  induction o as [|[k' v'] o IH]; simpl; intros Hk Ho.
  - repeat constructor. intros [].
  - inversion Ho as [|? ? Hk' Ho']; subst.
    destruct (before k k'); simpl.
    + constructor; [exact Hk | exact Ho].
    + constructor.
      * fold (obj_keys (create k v o)). rewrite In_keys_create.
        intros [-> | H]; [apply Hk; now left | contradiction].
      * apply IH; [intros H; apply Hk; now right | exact Ho'].
Qed.

Lemma order_keys_create (k : string) (v : jsval) (o : object) :
  enumeration_order (obj_keys o) -> enumeration_order (obj_keys (create k v o)).
Proof.
  induction o as [|[k' v'] o IH]; simpl; [intros _; repeat constructor|].
  intros [Hall Ho]. destruct (before k k') eqn:Hbefore; simpl.
  - split; [|split; assumption].
    constructor; [now apply before_asym|].
    eapply Forall_impl; [|exact Hall]. intros y Hy.
    exact (before_behind k k' y Hbefore Hy).
  - split; [|now apply IH].
    fold (obj_keys (create k v o)). apply Forall_forall. intros y Hy.
    apply In_keys_create in Hy. destruct Hy as [-> | Hy]; [exact Hbefore|].
    rewrite Forall_forall in Hall. now apply Hall.
Qed.

Lemma well_formed_assign (k : string) (o : object) :
  well_formed o -> well_formed (assign_true k o).
Proof.
  intros [Hdup [Hord Hproto]]. unfold assign_true.
  assert (has_own "__proto__" o = false) as Hnone.
  { destruct (has_own "__proto__" o) eqn:E; [|reflexivity].
    apply has_own_keys in E. contradiction. }
  destruct (String.eqb k "__proto__") eqn:Hk.
  - apply String.eqb_eq in Hk. subst k. rewrite Hnone. simpl.
    repeat split; assumption.
  - simpl. apply String.eqb_neq in Hk. unfold obj_set.
    destruct (has_own k o) eqn:Hown.
    + unfold well_formed. rewrite (obj_keys_update k _ o Hown).
      repeat split; assumption.
    + assert (~ In k (obj_keys o)) as Hnew.
      { intros H. apply has_own_keys in H. congruence. }
      split; [now apply NoDup_keys_create|].
      split; [now apply order_keys_create|].
      rewrite In_keys_create. intros [H | H]; [now elim Hk | contradiction].
Qed.

Lemma In_obj_delete (k x : string) (o : object) :
  In x (obj_keys (obj_delete k o)) -> In x (obj_keys o).
Proof.
  unfold obj_keys. induction o as [|[k' v'] o IH]; simpl; [tauto|].
  destruct (String.eqb k k'); simpl; [auto|]. intros [H | H]; auto.
Qed.

Lemma well_formed_delete (k : string) (o : object) :
  well_formed o -> well_formed (obj_delete k o).
Proof.
  intros [Hdup [Hord Hproto]]. split; [|split].
  - clear Hord Hproto. induction o as [|[k' v'] o IH]; simpl; [constructor|].
    inversion Hdup as [|? ? Hnot Ho]; subst.
    destruct (String.eqb k k'); [auto|]. simpl. constructor; [|auto].
    intros H. apply Hnot. now apply (In_obj_delete k).
  - clear Hdup Hproto. induction o as [|[k' v'] o IH]; simpl; [exact I|].
    destruct Hord as [Hall Ho]. destruct (String.eqb k k'); [auto|].
    simpl. split; [|auto].
    apply Forall_forall. intros y Hy. apply In_obj_delete in Hy.
    rewrite Forall_forall in Hall. now apply Hall.
  - intros H. apply Hproto. now apply (In_obj_delete k).
Qed.

Lemma well_formed_processed (assignment : object) :
  forall acc, well_formed acc -> well_formed (processed assignment acc).
Proof.
  unfold processed. induction assignment as [|[k v] a IH]; intros acc Hacc; simpl.
  - exact Hacc.
  - apply IH. destruct (is_true v); [now apply well_formed_assign | exact Hacc].
Qed.

Lemma well_formed_edited (assignment : object) :
  forall acc, well_formed acc -> well_formed (edited assignment acc).
Proof.
  unfold edited. induction assignment as [|[k v] a IH]; intros acc Hacc; simpl.
  - exact Hacc.
  - apply IH. destruct (is_true v); [now apply well_formed_assign|].
    destruct (is_false v); [now apply well_formed_delete | exact Hacc].
Qed.

Lemma well_formed_listed (props : list string) :
  forall acc, well_formed acc -> well_formed (listed props acc).
Proof.
  unfold listed. induction props as [|k props IH]; intros acc Hacc; simpl.
  - exact Hacc.
  - apply IH. now apply well_formed_assign.
Qed.

Lemma well_formed_empty : well_formed [].
Proof. repeat split; [constructor | intros []]. Qed.

(** Whatever the assignments handed in, the methods store assignments that
    name each proposition once, in the order of enumeration, and never under
    [__proto__]. *)
Lemma perform_well_formed (c : call) (m : Model) :
  Forall stores_well_formed (getStates m) ->
  Forall stores_well_formed (getStates (run (perform c) m)).
Proof.
  intros Hm. destruct c; cbn [perform].
  - unfold run. now rewrite addTransition_keeps.
  - unfold run. now rewrite removeTransition_keeps.
  - rewrite addState_assignments. apply Forall_app. split; [exact Hm|].
    constructor; [|constructor].
    apply well_formed_processed. exact well_formed_empty.
  - rewrite editState_assignments.
    destruct (nth_error (getStates m) state) as [[o|]|] eqn:Hn; try exact Hm.
    apply Forall_set_nth; [|exact Hm].
    apply well_formed_edited. exact (Forall_nth_error _ _ _ _ Hm Hn).
  - rewrite removeState_assignments.
    destruct (state_at m state); [|exact Hm].
    apply Forall_set_nth; [exact I | exact Hm].
  - destruct (loadFromModelString_assignments modelString m) as [-> | [k ->]];
      [exact Hm|].
    apply Forall_forall. intros x Hx. apply in_map_iff in Hx.
    destruct Hx as [token [<- _]].
    unfold restored. destruct token as [|ch token]; [exact I|].
    destruct (match_A_S (String ch token)) as [[props succs]|]; [|exact I].
    apply well_formed_listed. exact well_formed_empty.
Qed.

Lemma after_well_formed (calls : list call) :
  forall m, Forall stores_well_formed (getStates m) ->
            Forall stores_well_formed (getStates (after calls m)).
Proof.
  induction calls as [|c calls IH]; intros m Hm; simpl; [exact Hm|].
  apply IH. now apply perform_well_formed.
Qed.

Lemma true_entries_keys (o : object) :
  true_entries o -> map (fun k => (k, JBool true)) (obj_keys o) = o.
Proof.
  intros Ho. induction Ho as [|[k v] o Hv Ho IH]; simpl; [reflexivity|].
  simpl in Hv. subst v. now rewrite IH.
Qed.

Lemma restored_token_of (state : option State) :
  printable state ->
  restored (token_of state) = hd None (getStates [state]).
Proof.
  destruct state as [st|]; [|reflexivity].
  intros [Htrue [[Hdup [Hord Hproto]] Hkeys]].
  unfold restored. rewrite token_of_match.
  unfold token_of. simpl.
  rewrite (proj1 (keys_of_token _ Hkeys)).
  rewrite (listed_fresh _ [] Hdup Hord Hproto). simpl.
  now rewrite (true_entries_keys _ Htrue).
Qed.

(** X20: for a model with at least one state, whose assignments are as the
    methods store them (see [perform_well_formed]) and name the propositions
    in word characters, loading the string that [getModelString] returns
    does not throw and restores as many states, with [null] at the same
    indices and the same valuation at every other index (whatever model it
    is loaded into). *)
Theorem model_string_restores_valuations :
  forall m current : Model,
    m <> [] ->
    Forall printable m ->
    fst (loadFromModelString (getModelString m) current) = Ret tt
    /\ getStates (run (loadFromModelString (getModelString m)) current)
       = getStates m.
Proof.
  intros m current Hne Hm.
  assert (getModelString m
          = concat "" (map (fun state => (token_of state ++ ";")%string) m))
    as Hstring.
  { unfold getModelString. now rewrite getModelString_tokens. }
  pose proof (split_model_string m Hm) as Hsplit. rewrite <- Hstring in Hsplit.
  assert (regex_test (getModelString m) = true) as Hre.
  { unfold regex_test. rewrite Hsplit, rev_app_distr. simpl rev. simpl app.
    apply andb_true_intro. split.
    - rewrite length_rev, length_map. now destruct m.
    - apply forallb_forall. intros t Ht. apply in_rev in Ht.
      apply in_map_iff in Ht. destruct Ht as [state [<- Hstate]].
      rewrite Forall_forall in Hm.
      destruct (token_of_ok state (Hm state Hstate)) as [-> | ->];
        [reflexivity | apply orb_true_r]. }
  unfold run. rewrite (loadFromModelString_valid _ current Hre).
  rewrite Hsplit, removelast_last. cbn [fst snd]. split.
  - assert (forallb (fun t => Nat.eqb (List.length (listed_successors t)) 0)
                    (map token_of m) = true) as ->; [|reflexivity].
    apply forallb_forall. intros t Ht.
    apply in_map_iff in Ht. destruct Ht as [[st|] [<- _]]; [|reflexivity].
    unfold listed_successors. now rewrite token_of_match.
  - unfold getStates at 1. rewrite !map_map.
    unfold getStates. apply map_ext_in. intros state Hstate.
    rewrite Forall_forall in Hm.
    pose proof (restored_token_of state (Hm state Hstate)) as Hr.
    unfold restored_state. rewrite Hr. now destruct state.
Qed.

Lemma model_string_restores_valuations_witness :
  fst (loadFromModelString (getModelString documented_model) one_world) = Ret tt
  /\ getStates (run (loadFromModelString (getModelString documented_model)) one_world)
     = getStates documented_model.
Proof.
  apply (model_string_restores_valuations documented_model one_world).
  - discriminate.
  - repeat constructor; simpl; try discriminate; try reflexivity.
    + intros [H | []]. discriminate.
    + intros [].
    + intros [H | [H | []]]; discriminate.
    + intros [].
Defined.

(** ** Further invariants *)

(** X24: on a model whose states hold Maps, [removeState(state)] changes
    nothing but the slot at [state], which becomes [null]: every other state
    keeps its valuation and its whole relation, the transitions that lead to
    the removed world included; on an absent index it changes nothing. *)
Theorem removeState_changes_one_slot :
  forall (state : nat) (m : Model),
    maps_only m ->
    removeState state m
    = (Ret tt, match state_at m state with
               | Some _ => set_nth state None m
               | None => m
               end).
Proof. exact removeState_only_tombstones. Qed.

Lemma removeState_changes_one_slot_witness :
  removeState 1 two_agents = (Ret tt, set_nth 1 None two_agents).
Proof.
  apply (removeState_changes_one_slot 1 two_agents).
  intros i st Hst.
  destruct i as [|[|[|i]]]; vm_compute in Hst.
  - injection Hst as <-. simpl. eauto.
  - injection Hst as <-. simpl. eauto.
  - injection Hst as <-. simpl. eauto.
  - destruct i; discriminate.
Defined.

(** X25: whatever the model, the worlds [getAllSuccessorsOf] returns are
    listed once each, and each is reachable from the start world in one or
    more steps of the agent's relation (so the start world is among them
    only when a cycle leads back to it). *)
Theorem getAllSuccessorsOf_sound :
  forall (model : Model) (agent : string) (state : nat) (W : list nat),
    getAllSuccessorsOf model state (JStr agent) = Ret W ->
    NoDup W /\ forall x, In x W -> reachable model agent state x.
Proof. exact getAllSuccessorsOf_visits. Qed.

Lemma getAllSuccessorsOf_sound_witness :
  NoDup [1] /\ forall x, In x [1] -> reachable two_cycle "a" 0 x.
Proof.
  exact (getAllSuccessorsOf_sound two_cycle "a" 0 [1] eq_refl).
Defined.

(** X26: a transition left dangling makes evaluation throw: when the first
    successor of agent [a] at a world is an index without a state (as after
    [removeState], which keeps the transitions), [Know(a, p)] for a
    proposition [p] throws 'State ... not found!' for that index. *)
Theorem know_throws_on_dangling_transition :
  forall (G model : Model) (state : nat) (st : State) (s : Map) (a p : string)
         (x : nat) (L : list nat),
    state_at model state = Some st ->
    successors st = SuccMap s ->
    map_get a s = Some (x :: L) ->
    state_at model x = None ->
    p <> EmptyString ->
    _truth G model state (Know a (Prop_ p)) = Throw (state_not_found x).
Proof.
  intros G model state st s a p x L Hst Hs Ha Hx Hp.
  destruct p as [|c p]; [congruence|].
  unfold Know, agent_node, Prop_. simpl.
  unfold getSuccessorsOf. rewrite Hst, Hs. simpl. rewrite Ha. simpl.
  unfold valuation. rewrite Hx. reflexivity.
Qed.

Lemma know_throws_on_dangling_transition_witness :
  _truth one_edge (run (removeState 1) one_edge) 0 (Know "a" (Prop_ "p"))
  = Throw (state_not_found 1).
Proof.
  apply (know_throws_on_dangling_transition one_edge (run (removeState 1) one_edge)
           0 (mkState [] (SuccMap [("a", [1])])) [("a", [1])] "a" "p" 1 []);
    try reflexivity.
  discriminate.
Defined.

(** ** Groups of any size *)

Lemma NoDup_push_new (F : list nat) (s : nat) : NoDup F -> NoDup (push_new F s).
Proof.
  intros HF. unfold push_new. destruct (existsb (Nat.eqb s) F) eqn:E; [exact HF|].
  apply NoDup_app; [exact HF | repeat constructor; intros [] |].
  intros x Hx [Heq | []]. subst x.
  apply existsb_eqb_In in Hx. congruence.
Qed.

Lemma NoDup_fold_push_new (array : list nat) :
  forall F, NoDup F -> NoDup (fold_left push_new array F).
Proof.
  induction array as [|s array IH]; intros F HF; simpl; [exact HF|].
  apply IH. now apply NoDup_push_new.
Qed.

Lemma union_fold (S : list (list nat)) :
  forall F,
    (NoDup F -> NoDup (fold_left (fun F array => fold_left push_new array F) S F))
    /\ forall x, In x (fold_left (fun F array => fold_left push_new array F) S F)
                 <-> In x F \/ exists R, In R S /\ In x R.
Proof.
  induction S as [|R S IH]; intros F; simpl.
  - split; [auto|]. intros x. split; [auto|]. intros [H | [R [[] _]]]. exact H.
  - destruct (IH (fold_left push_new R F)) as [Hdup Hin]. split.
    + intros HF. apply Hdup. now apply NoDup_fold_push_new.
    + intros x. rewrite Hin, In_fold_push_new. split.
      * intros [[H | H] | [R' [HR' Hx]]]; [now left | |].
        -- right. exists R. split; [now left | exact H].
        -- right. exists R'. split; [now right | exact Hx].
      * intros [H | [R' [[<- | HR'] Hx]]]; [now left; left | now left; right |].
        right. exists R'. now split.
Qed.

Lemma intersection_fold (S : list (list nat)) :
  forall F x,
    In x (fold_left (fun F array => filter (fun s => existsb (Nat.eqb s) array) F) S F)
    <-> In x F /\ forall R, In R S -> In x R.
Proof.
  induction S as [|R S IH]; intros F x; simpl.
  - split; [intros H; split; [exact H | intros R []] | tauto].
  - rewrite IH, filter_In, existsb_eqb_In. split.
    + intros [[HF HR] HS]. split; [exact HF|].
      intros R' [<- | HR']; [exact HR | now apply HS].
    + intros [HF HS]. repeat split; [exact HF | apply HS; now left |].
      intros R' HR'. apply HS. now right.
Qed.

Lemma reach_each_agents (model : Model) (state : nat) (names : list string)
    (S : list (list nat)) :
  Forall2 (fun a R => getAllSuccessorsOf model state (JStr a) = Ret R) names S ->
  reach_each model state (map agent_node names) = Ret S.
Proof.
  intros H. induction H as [|a R names S Ha _ IH]; [reflexivity|].
  cbn [map reach_each]. unfold agent_node at 1, obj at 1. cbn [get_prop key_eqb bind].
  rewrite Ha. cbn [bind]. rewrite IH. reflexivity.
Qed.

(** X23: for a group of any size, handed as its agent leaves: when
    [getAllSuccessorsOf] returns for each agent, [gAccessibility] returns
    the union of the results, each world once, and [gAccessStrict] returns
    their intersection; for the empty group [gAccessStrict] returns
    [undefined]. *)
Theorem group_closures_are_union_and_intersection :
  forall (model : Model) (state : nat) (names : list string)
         (S : list (list nat)),
    Forall2 (fun a R => getAllSuccessorsOf model state (JStr a) = Ret R) names S ->
    (exists U,
       gAccessibility model state (map agent_node names) = Ret U
       /\ NoDup U
       /\ forall x, In x U <-> exists R, In R S /\ In x R)
    /\ match S with
       | [] => gAccessStrict model state (map agent_node names) = Ret None
       | _ :: _ =>
           exists D,
             gAccessStrict model state (map agent_node names) = Ret (Some D)
             /\ forall x, In x D <-> forall R, In R S -> In x R
       end.
Proof.
  intros model state names S HS.
  pose proof (reach_each_agents model state names S HS) as Hreach.
  unfold gAccessibility, gAccessStrict. rewrite Hreach. cbn [bind]. split.
  - destruct (union_fold S []) as [Hdup Hin].
    eexists. split; [reflexivity|]. split; [apply Hdup; constructor|].
    intros x. rewrite Hin. split; [intros [[] | H]; exact H | now right].
  - destruct S as [|F S]; [reflexivity|].
    eexists. split; [reflexivity|].
    intros x. rewrite intersection_fold. split.
    + intros [_ H]. exact H.
    + intros H. split; [apply H; now left | exact H].
Qed.

Lemma group_closures_are_union_and_intersection_witness :
  (exists U,
     gAccessibility two_agents 0 (map agent_node ["a"; "b"; "c"]) = Ret U
     /\ NoDup U
     /\ forall x, In x U <-> exists R, In R [[1; 2]; [2]; []] /\ In x R)
  /\ exists D,
       gAccessStrict two_agents 0 (map agent_node ["a"; "b"; "c"]) = Ret (Some D)
       /\ forall x, In x D <-> forall R, In R [[1; 2]; [2]; []] -> In x R.
Proof.
  apply (group_closures_are_union_and_intersection two_agents 0
           ["a"; "b"; "c"] [[1; 2]; [2]; []]).
  repeat constructor.
Defined.

(** X22: over a group of two or more agents, [Common(group, f)] is true
    exactly when [f] is true at every world [gAccessibility] returns for the
    group, and [Distributed(group, f)] when [f] is true at every world
    [gAccessStrict] returns.  The worlds are those of the model the free
    identifier [model] is bound to ([G]); [f] is evaluated in the model
    passed to the evaluator. *)
Theorem common_and_distributed_test_group_closure :
  forall (G model : Model) (state : nat) (a b : string) (rest : list string)
         (f : jsval) (W : list nat) (v : nat -> bool),
    last rest b <> EmptyString ->
    (forall x, In x W -> _truth G model x f = Ret (JBool (v x))) ->
    (gAccessibility G state (map agent_node (a :: b :: rest)) = Ret W ->
     _truth G model state (Common (group_of a (b :: rest)) f)
     = Ret (JBool (forallb v W)))
    /\ (gAccessStrict G state (map agent_node (a :: b :: rest)) = Ret (Some W) ->
        _truth G model state (Distributed (group_of a (b :: rest)) f)
        = Ret (JBool (forallb v W))).
Proof.
  intros G model state a b rest f W v Hlast Hf.
  pose proof (group_of_value G model state a b rest Hlast) as Hgroup.
  set (names := a :: b :: rest) in *.
  set (grp := group_of a (b :: rest)) in *. clearbody grp names.
  split; intros HW.
  - unfold Common. simpl. rewrite Hgroup. simpl. rewrite HW. simpl.
    now rewrite (every_bool _ v W Hf).
  - unfold Distributed. simpl. rewrite Hgroup. simpl. rewrite HW. simpl.
    now rewrite (every_bool _ v W Hf).
Qed.

Lemma common_and_distributed_test_group_closure_witness :
  _truth two_agents three_worlds 0 (Common (group_of "a" ["b"]) (Prop_ "p"))
  = Ret (JBool (forallb (fun x => Nat.eqb x 1) [1; 2])).
Proof.
  apply (proj1 (common_and_distributed_test_group_closure two_agents three_worlds
                  0 "a" "b" [] (Prop_ "p") [1; 2] (fun x => Nat.eqb x 1)
                  ltac:(discriminate)
                  ltac:(intros x [<- | [<- | []]]; reflexivity))).
  reflexivity.
Defined.

Lemma addTransition_frame_witness :
  state_at (run (addTransition 0 2 ["a"]) two_agents) 1 = state_at two_agents 1
  /\ addTransition 0 7 ["a"] two_agents = (Ret tt, two_agents).
Proof.
  split.
  - apply (proj1 (addTransition_frame two_agents 0 2 ["a"]) 1). discriminate.
  - apply (proj2 (proj2 (addTransition_frame two_agents 0 7 ["a"]))).
    right. reflexivity.
Defined.
